(** * CS-370-stuff: the blob transfer snippets and the .edu e-mail validator

    A shallow embedding of the two Python files of the repository,

    - [studylink-Folder/studyLink_eduEmailValidator_v1.py]
      ([validate_edu_email], [main]), and
    - [studylink-Folder/image_store.py] (the upload snippet and the
      retrieve snippet),

    and the properties the specification states about them.

    Conventions of the embedding.

    - A Python [str] is a [str], a list of code points.  A [string] is a
      [str] of code points below 256, and is read as one wherever a [str]
      is expected.  The lines typed at the console are of that kind.
    - A Python [bytes] is a [list byte].
    - A script runs in a [world]: the console, the local files and the
      database server.  An exception ends the run and leaves the world as
      it was at the raise.
    - The console is in UTF-8, as Python has it by default: it writes every
      text but those with a surrogate code point.  Writing a local file
      always succeeds.
    - The column [image_data] holds no NULL: the upload never stores
      one. *)

From Stdlib Require Import NArith.
From Stdlib.Strings Require Import Ascii String Byte.
From stdpp Require Import gmap strings list.

(** ** Python strings *)

Module Str.

(** A code point: [Chr c] is the code point of [c], below 256, and [Wide n]
    is the code point [256 + n].  Python stops at U+10FFFF; a larger [n]
    stands for no character a [str] can hold, and is treated as any other
    character from 256 on. *)
Inductive pychar : Type :=
| Chr (c : ascii)
| Wide (n : N).

Definition str : Type := list pychar.

Definition of_string (s : string) : str := Chr <$> list_ascii_of_string s.

Definition code_point (c : pychar) : N :=
  match c with
  | Chr a => N_of_ascii a
  | Wide n => 256 + n
  end.


(** The surrogates, U+D800 to U+DFFF: code points a [str] may hold and UTF-8
    cannot write. *)
Definition surrogate (c : pychar) : bool :=
  match c with
  | Chr _ => false
  | Wide _ => ((0xD800 <=? code_point c) && (code_point c <=? 0xDFFF))%N
  end.

Definition encodable (s : str) : bool := forallb (λ c, negb (surrogate c)) s.

End Str.

Import Str.

Coercion of_string : string >-> str.

(** ** The world and the script monad *)

Module Py.

(** The exceptions of the two files.  [NotFoundError] is the kind the
    specification names for a retrieve that finds no row; no statement of
    the repository raises it. *)
Inductive exn : Type :=
| TypeError          (* subscripting None *)
| FileNotFoundError  (* open(path, 'rb') on a missing file *)
| EOFError           (* input() at the end of standard input *)
| InterfaceError     (* the error of a connect() that fails: the driver's
                        InterfaceError or, with its C extension, its
                        DatabaseError *)
| OperationalError   (* a statement on a connection that is not open *)
| IntegrityError     (* a unique key of the table is violated *)
| IndexError         (* a tuple subscripted past its end *)
| InternalError      (* cursor.close() with rows of the result unread *)
| UnicodeEncodeError (* a text the console cannot write *)
| NotFoundError.

(** What a script wrote to the console: [print] writes a line, [input]
    writes its prompt. *)
Inductive event : Type :=
| Print (line : str)
| Prompt (text : string).

(** A row of the table [image_store (image_name, image_data)]. *)
Record row : Type := Row { image_name : string; image_data : list byte }.

Record world : Type := World {
  stdin : list string;              (* the lines still to be read *)
  stdout : list event;              (* what was written, oldest first *)
  files : gmap string (list byte);  (* the local files, by path *)
  reachable : bool;                 (* does connect() succeed: the server
                                       is reached and lets the user in *)
  image_store : list row;           (* the committed rows, oldest first *)
  session : option (list row)       (* the open connection and its
                                       uncommitted rows, if any *)
}.

Inductive outcome (A : Type) : Type :=
| Ret (a : A)
| Raise (e : exn).
Arguments Ret {A} a.
Arguments Raise {A} e.

Definition M (A : Type) : Type := world → outcome A * world.

Definition ret {A} (a : A) : M A := λ w, (Ret a, w).
Definition raise {A} (e : exn) : M A := λ w, (Raise e, w).
Definition bind {A B} (c : M A) (k : A → M B) : M B :=
  λ w, match c w with
       | (Ret a, w') => k a w'
       | (Raise e, w') => (Raise e, w')
       end.
Definition get : M world := λ w, (Ret w, w).
Definition put (w : world) : M unit := λ _, (Ret tt, w).

Definition set_stdin (l : list string) (w : world) : world :=
  World l (stdout w) (files w) (reachable w) (image_store w) (session w).
Definition set_stdout (o : list event) (w : world) : world :=
  World (stdin w) o (files w) (reachable w) (image_store w) (session w).
Definition set_files (f : gmap string (list byte)) (w : world) : world :=
  World (stdin w) (stdout w) f (reachable w) (image_store w) (session w).
Definition set_image_store (t : list row) (w : world) : world :=
  World (stdin w) (stdout w) (files w) (reachable w) t (session w).
Definition set_session (s : option (list row)) (w : world) : world :=
  World (stdin w) (stdout w) (files w) (reachable w) (image_store w) s.

End Py.

Import Py.

Declare Scope py_scope.
Delimit Scope py_scope with py.
Notation "x <- c1 ;; c2" := (bind c1 (λ x, c2))
  (at level 100, c1 at next level, c2 at level 200, right associativity) : py_scope.
Notation "c1 ;; c2" := (bind c1 (λ _, c2))
  (at level 100, c2 at level 200, right associativity) : py_scope.
Open Scope py_scope.

(** ** Console *)

Module Console.

(** [print(line)]: the line is written as a whole, or not at all when the
    console cannot encode it. *)
Definition print (line : str) : M unit :=
  w <- get ;;
  if encodable line then put (set_stdout (stdout w ++ [Print line]) w)
  else raise UnicodeEncodeError.

(** [input(prompt)]: writes the prompt, then reads one line, without its
    newline; at the end of the input it raises [EOFError]. *)
Definition input (prompt : string) : M string :=
  w <- get ;;
  put (set_stdout (stdout w ++ [Prompt prompt]) w) ;;
  w <- get ;;
  match stdin w with
  | [] => raise EOFError
  | line :: rest => put (set_stdin rest w) ;; ret line
  end.

(** The world after one more printed line. *)
Definition printed (line : str) (w : world) : world :=
  set_stdout (stdout w ++ [Print line]) w.

(** The world after [input] wrote its prompt and took the first line. *)
Definition prompted (prompt : string) (rest : list string) (w : world) : world :=
  set_stdin rest (set_stdout (stdout w ++ [Prompt prompt]) w).

End Console.

Import Console.


(** ** Regular expressions, as Python's [re] matches them

    The syntax below covers what the two patterns of the validator use.  A
    pattern is matched by derivatives: [deriv c r] matches the words [s]
    such that [r] matches [c :: s].  The anchors are kept beside the
    expression, since both patterns have them at their ends only. *)

Module Re.

Definition LF : ascii := "010"%char.

Definition code (c : ascii) : N := N_of_ascii c.

(** One member of a bracket expression: a character, or a range [lo-hi]. *)
Inductive item : Type :=
| Single (c : ascii)
| Range (lo hi : ascii).

Inductive regex : Type :=
| Never                      (* matches nothing *)
| Eps                        (* the empty word *)
| Lit (c : ascii)            (* one literal character, such as [@] or [\.] *)
| In (items : list item)     (* a bracket expression [[...]] *)
| Cat (r1 r2 : regex)
| Alt (r1 r2 : regex)
| Star (r : regex).

(** [r+] *)
Definition plus (r : regex) : regex := Cat r (Star r).

(** [r{n,}] *)
Fixpoint at_least (n : nat) (r : regex) : regex :=
  match n with
  | O => Star r
  | S n' => Cat r (at_least n' r)
  end.

(** A pattern: [^] body [$], either anchor optional. *)
Record pattern : Type := Pattern { bol : bool; body : regex; eol : bool }.

Inductive flags : Type := NOFLAG | IGNORECASE.

(** The simple case mappings, on the code points below 256 whose image is
    below 256 too: the ASCII letters, and the accented letters 192-222 and
    224-254 other than the multiplication and the division sign. *)
Definition lower (c : ascii) : ascii :=
  let n := code c in
  if ((65 <=? n) && (n <=? 90) || (192 <=? n) && (n <=? 222) && negb (n =? 215))%N
  then ascii_of_N (n + 32) else c.

Definition upper (c : ascii) : ascii :=
  let n := code c in
  if ((97 <=? n) && (n <=? 122) || (224 <=? n) && (n <=? 254) && negb (n =? 247))%N
  then ascii_of_N (n - 32) else c.

Definition in_item (c : ascii) (i : item) : bool :=
  match i with
  | Single x => Ascii.eqb c x
  | Range lo hi => ((code lo <=? code c) && (code c <=? code hi))%N
  end.

Definition in_set (items : list item) (c : ascii) : bool :=
  existsb (in_item c) items.

(** The code points from 256 on that equal a character below 256 when the
    case is ignored: the two other forms of [i], the long [s], the capital
    of [y] with diaeresis, the Greek mu of either case for the micro sign,
    the capital sharp [s], the Kelvin sign and the Angstrom sign. *)
Definition fold_wide (n : N) : option ascii :=
  let p := (256 + n)%N in
  if ((p =? 0x130) || (p =? 0x131))%N then Some "i"%char
  else if (p =? 0x17F)%N then Some "s"%char
  else if (p =? 0x178)%N then Some (ascii_of_N 0xFF)
  else if ((p =? 0x39C) || (p =? 0x3BC))%N then Some (ascii_of_N 0xB5)
  else if (p =? 0x1E9E)%N then Some (ascii_of_N 0xDF)
  else if (p =? 0x212A)%N then Some "k"%char
  else if (p =? 0x212B)%N then Some (ascii_of_N 0xE5)
  else None.

(** Does the character [c] match the literal [x], or the set [items]?  The
    literals and the sets of a pattern are below 256.  With IGNORECASE the
    two are compared in lower case; the validator uses that flag with the
    literals of [\.edu] only. *)
Definition lit_ok (fl : flags) (x : ascii) (c : pychar) : bool :=
  match fl, c with
  | NOFLAG, Chr a => Ascii.eqb a x
  | NOFLAG, Wide _ => false
  | IGNORECASE, Chr a => Ascii.eqb (lower a) (lower x)
  | IGNORECASE, Wide n =>
      match fold_wide n with
      | Some a => Ascii.eqb (lower a) (lower x)
      | None => false
      end
  end.

Definition set_ok (fl : flags) (items : list item) (c : pychar) : bool :=
  match fl, c with
  | NOFLAG, Chr a => in_set items a
  | NOFLAG, Wide _ => false
  | IGNORECASE, Chr a => in_set items (lower a) || in_set items (upper a)
  | IGNORECASE, Wide n =>
      match fold_wide n with
      | Some a => in_set items (lower a) || in_set items (upper a)
      | None => false
      end
  end.

Fixpoint nullable (r : regex) : bool :=
  match r with
  | Never => false
  | Eps => true
  | Lit _ => false
  | In _ => false
  | Cat r1 r2 => nullable r1 && nullable r2
  | Alt r1 r2 => nullable r1 || nullable r2
  | Star _ => true
  end.

Fixpoint deriv (fl : flags) (c : pychar) (r : regex) : regex :=
  match r with
  | Never => Never
  | Eps => Never
  | Lit x => if lit_ok fl x c then Eps else Never
  | In items => if set_ok fl items c then Eps else Never
  | Cat r1 r2 =>
      if nullable r1
      then Alt (Cat (deriv fl c r1) r2) (deriv fl c r2)
      else Cat (deriv fl c r1) r2
  | Alt r1 r2 => Alt (deriv fl c r1) (deriv fl c r2)
  | Star r1 => Cat (deriv fl c r1) (Star r1)
  end.

(** Python's [$] without MULTILINE: the end of the string, or the place just
    before a newline that is the last character of the string. *)
Definition at_dollar (rest : str) : bool :=
  match rest with
  | [] => true
  | [Chr c] => Ascii.eqb c LF
  | _ => false
  end.

Definition at_end (p : pattern) (rest : str) : bool :=
  if eol p then at_dollar rest else true.

(** A match of [r] that starts here: some prefix of [s] is a word of [r] and
    the rest of [s] satisfies the end condition. *)
Fixpoint match_here (fl : flags) (p : pattern) (r : regex) (s : str) : bool :=
  nullable r && at_end p s
  || match s with
     | [] => false
     | c :: s' => match_here fl p (deriv fl c r) s'
     end.

(** A match that starts at this position or at a later one; without
    MULTILINE, [^] holds at the start of the string only. *)
Fixpoint search_from (fl : flags) (p : pattern) (s : str) : bool :=
  match_here fl p (body p) s
  || match s with
     | [] => false
     | _ :: s' => search_from fl p s'
     end.

(** [re.match(p, s, fl)] as a truth value: a match at the start of [s]. *)
Definition re_match (p : pattern) (s : str) (fl : flags) : bool :=
  match_here fl p (body p) s.

(** [re.search(p, s, fl)] as a truth value: a match anywhere in [s]. *)
Definition re_search (p : pattern) (s : str) (fl : flags) : bool :=
  if bol p then match_here fl p (body p) s
  else search_from fl p s.

(** [s.strip()] on a line of the console: Python's white space among the
    code points below 256. *)
Definition isspace (c : ascii) : bool :=
  let n := code c in
  ((9 <=? n) && (n <=? 13) || (28 <=? n) && (n <=? 32) || (n =? 133) || (n =? 160))%N.

Fixpoint lstrip_list (l : list ascii) : list ascii :=
  match l with
  | [] => []
  | c :: l' => if isspace c then lstrip_list l' else l
  end.

(** What [lstrip] leaves: a list that does not start with white space. *)
Definition no_leading_space (l : list ascii) : Prop :=
  match l with
  | [] => True
  | c :: _ => isspace c = false
  end.

Definition strip_list (l : list ascii) : list ascii :=
  rev (lstrip_list (rev (lstrip_list l))).

Definition strip (s : string) : string :=
  string_of_list_ascii (strip_list (list_ascii_of_string s)).

End Re.

Import Re.

(** ** studyLink_eduEmailValidator_v1.py *)

Module EduEmail.

(** [r'^[a-zA-Z0-9._%+-]+@[a-zA-Z0-9.-]+\.[a-zA-Z]{2,}$'] *)
Definition local_set : list item :=
  [Range "a" "z"; Range "A" "Z"; Range "0" "9";
   Single "."; Single "_"; Single "%"; Single "+"; Single "-"].
Definition domain_set : list item :=
  [Range "a" "z"; Range "A" "Z"; Range "0" "9"; Single "."; Single "-"].
Definition alpha_set : list item := [Range "a" "z"; Range "A" "Z"].

Definition email_pattern : pattern :=
  Pattern true
    (Cat (plus (In local_set))
      (Cat (Lit "@")
        (Cat (plus (In domain_set))
          (Cat (Lit ".") (at_least 2 (In alpha_set))))))
    true.

(** [r'\.edu$'] *)
Definition edu_pattern : pattern :=
  Pattern false (Cat (Lit ".") (Cat (Lit "e") (Cat (Lit "d") (Lit "u")))) true.

Definition validate_edu_email (email : str) : M bool :=
  if negb (re_match email_pattern email NOFLAG) then
    print (of_string "Invalid email format: " ++ email) ;;
    ret false
  else if negb (re_search edu_pattern email IGNORECASE) then
    print (of_string "Email does not end with .edu: " ++ email) ;;
    ret false
  else
    print (of_string "Valid .edu email: " ++ email) ;;
    ret true.

Definition main : M unit :=
  line <- input "Enter email address: " ;;
  let user_input := strip line in
  ok <- validate_edu_email user_input ;;
  if negb ok then print "Invalid email address"
  else print "Valid email address".

(** The file run as a script.  Its text holds the design notes, the two
    functions and the guarded call [if __name__ == "__main__": main()] twice
    over, so a run calls [main] twice, the second time through the second,
    identical, pair of definitions. *)
Definition run_as_script : M unit :=
  main ;; main.

End EduEmail.

Import EduEmail.

(** ** image_store.py

    The file holds two snippets, run one after the other: the first uploads
    a local file into the table [image_store], the second reads a row back
    and writes its bytes to a local file.  The snippets name the file, the
    row and the output file by literals; the operations below take them as
    arguments and the snippets are their instances.

    The declaration of the table is not in the repository.  What the
    snippets depend on is taken as a parameter: [collate], the comparison
    the server uses on the column [image_name], and [unique_name], whether
    that column is a unique key.  A result set comes in the order of the
    table, the oldest row first. *)

Module ImageStore.

Section Schema.

Variable collate : string → string → bool.
Variable unique_name : bool.

(** [db = mysql.connector.connect(...)] and [cursor = db.cursor()].  A
    connect that fails, because the server is not reached or refuses the
    user, raises the driver's error for it, written [InterfaceError] here,
    and opens nothing. *)
Definition connect : M unit :=
  w <- get ;;
  if reachable w then put (set_session (Some []) w)
  else raise InterfaceError.

(** [with open(path, 'rb') as f: binary_data = f.read()] *)
Definition read_file (path : string) : M (list byte) :=
  w <- get ;;
  match files w !! path with
  | Some data => ret data
  | None => raise FileNotFoundError
  end.

(** [with open(path, 'wb') as f: f.write(data)] *)
Definition write_file (path : string) (data : list byte) : M unit :=
  w <- get ;; put (set_files (<[path := data]> (files w)) w).

Definition matches_name (name : string) (r : row) : bool :=
  collate (image_name r) name.

(** [cursor.execute("INSERT INTO image_store (image_name, image_data)
    VALUES (%s, %s)", (name, data))]: the row joins the uncommitted rows of
    the connection. *)
Definition execute_insert (name : string) (data : list byte) : M unit :=
  w <- get ;;
  match session w with
  | None => raise OperationalError
  | Some pending =>
      if unique_name && existsb (matches_name name) (image_store w ++ pending)
      then raise IntegrityError
      else put (set_session (Some (pending ++ [Row name data])) w)
  end.

(** [db.commit()] *)
Definition commit : M unit :=
  w <- get ;;
  match session w with
  | None => raise OperationalError
  | Some pending =>
      put (set_session (Some []) (set_image_store (image_store w ++ pending) w))
  end.

(** [cursor.execute("SELECT image_data FROM image_store WHERE image_name =
    ...")]: the result set, one tuple of one column for each row with
    that name, in the order of the table. *)
Definition execute_select (name : string) : M (list (list (list byte))) :=
  w <- get ;;
  match session w with
  | None => raise OperationalError
  | Some pending =>
      ret (map (λ r, [image_data r])
             (List.filter (matches_name name) (image_store w ++ pending)))
  end.

(** [cursor.fetchone()]: the first tuple of the result set, or None, and
    the tuples it leaves unread. *)
Definition fetchone {A} (result : list A) : option A * list A :=
  match result with
  | [] => (None, [])
  | t :: unread => (Some t, unread)
  end.

(** [t[0]] where [t] is a tuple or None. *)
Definition subscript0 {A} (t : option (list A)) : M A :=
  match t with
  | None => raise TypeError
  | Some columns =>
      match columns !! 0%nat with
      | Some v => ret v
      | None => raise IndexError
      end
  end.

(** [cursor.close()]: the driver refuses it, with "Unread result found",
    while tuples of the result set are unread. *)
Definition cursor_close {A} (unread : list A) : M unit :=
  match unread with
  | [] => ret tt
  | _ :: _ => raise InternalError
  end.

(** [db.close()]: what was not committed is lost. *)
Definition close : M unit :=
  w <- get ;; put (set_session None w).

(** The first snippet. *)
Definition upload_image (path name : string) : M unit :=
  connect ;;
  binary_data <- read_file path ;;
  execute_insert name binary_data ;;
  commit ;;
  print "Image uploaded successfully." ;;
  cursor_close ([] : list (list (list byte))) ;;
  close.

(** The second snippet. *)
Definition retrieve_image (name out : string) : M unit :=
  connect ;;
  result <- execute_select name ;;
  let (tuple, unread) := fetchone result in
  image_data <- subscript0 tuple ;;
  write_file out image_data ;;
  print "Image retrieved and written to file." ;;
  cursor_close unread ;;
  close.

(** The two snippets with the literals of the file. *)
Definition upload_snippet : M unit :=
  upload_image "path_to_your_image.jpg" "example.jpg".

Definition retrieve_snippet : M unit :=
  retrieve_image "example.jpg" "retrieved_image.jpg".

(** Running [image_store.py] runs both. *)
Definition image_store_py : M unit :=
  upload_snippet ;; retrieve_snippet.

End Schema.

(** Two worlds to run the file in: the input file holds two bytes and the
    table one row, of another name in [fresh_world] and of the name the
    snippets use in [taken_world]. *)
Definition fresh_world : world :=
  World [] [] {["path_to_your_image.jpg" := [x01; x02]]} true
    [Row "other.jpg" [x00]] None.

Definition taken_world : world :=
  World [] [] {["path_to_your_image.jpg" := [x01; x02]]} true
    [Row "example.jpg" [x00]] None.

End ImageStore.

Import ImageStore.

(** ** The words of the specification

    The second definitions of the development: what the specification says
    in words, to be compared with what the code computes. *)

Module Spec.

Definition is_alpha (c : ascii) : bool :=
  let n := code c in ((97 <=? n) && (n <=? 122) || (65 <=? n) && (n <=? 90))%N.

Definition is_digit (c : ascii) : bool :=
  let n := code c in ((48 <=? n) && (n <=? 57))%N.

(** "characters from the set [[a-zA-Z0-9._%+-]]" *)
Definition local_char (c : ascii) : bool :=
  is_alpha c || is_digit c
  || bool_decide (c ∈ ["."; "_"; "%"; "+"; "-"]%char).

(** "characters from [[a-zA-Z0-9.-]]" *)
Definition domain_char (c : ascii) : bool :=
  is_alpha c || is_digit c || bool_decide (c ∈ ["."; "-"]%char).

(** "one-or-more characters from the set [[a-zA-Z0-9._%+-]], then a literal
    [@], then one-or-more characters from [[a-zA-Z0-9.-]], then a literal
    [.], then two-or-more alphabetic characters, anchored at both ends of
    the string": the whole string is cut into the three parts. *)
Definition shape (s : list ascii) : Prop :=
  ∃ l d t : list ascii,
    s = l ++ "@"%char :: d ++ "."%char :: t
    ∧ l ≠ [] ∧ Forall (λ c, local_char c = true) l
    ∧ d ≠ [] ∧ Forall (λ c, domain_char c = true) d
    ∧ 2 ≤ length t ∧ Forall (λ c, is_alpha c = true) t.

Definition email_shape (s : string) : Prop := shape (list_ascii_of_string s).

(** "the literal suffix [.edu] at the end of the string", in either case of
    each letter. *)
Definition edu_word (x : list ascii) : Prop :=
  ∃ e d u : ascii,
    x = ["."%char; e; d; u]
    ∧ (e = "e" ∨ e = "E")%char ∧ (d = "d" ∨ d = "D")%char
    ∧ (u = "u" ∨ u = "U")%char.

Definition ends_with_edu (s : string) : Prop :=
  ∃ p x : list ascii, list_ascii_of_string s = p ++ x ∧ edu_word x.

(** Two characters that differ at most in their case: the same character,
    or the two cases of one of the letters [a] to [z]. *)
Definition same_letter (c1 c2 : pychar) : Prop :=
  c1 = c2
  ∨ ∃ a1 a2 : ascii,
      c1 = Chr a1 ∧ c2 = Chr a2 ∧ is_alpha a1 = true ∧ lower a1 = lower a2.


(** A string that neither starts nor ends with white space. *)
Definition trimmed (l : list ascii) : Prop :=
  no_leading_space l ∧ no_leading_space (rev l).

Definition blank (l : list ascii) : Prop := Forall (λ c, isspace c = true) l.

End Spec.

Import Spec.

(** ** The language of a regular expression *)

Module ReLang.

Inductive Lang (fl : flags) : regex → str → Prop :=
| Lang_Eps : Lang fl Eps []
| Lang_Lit x c : lit_ok fl x c = true → Lang fl (Lit x) [c]
| Lang_In items c : set_ok fl items c = true → Lang fl (In items) [c]
| Lang_Cat r1 r2 s1 s2 :
    Lang fl r1 s1 → Lang fl r2 s2 → Lang fl (Cat r1 r2) (s1 ++ s2)
| Lang_Alt_l r1 r2 s : Lang fl r1 s → Lang fl (Alt r1 r2) s
| Lang_Alt_r r1 r2 s : Lang fl r2 s → Lang fl (Alt r1 r2) s
| Lang_Star_nil r : Lang fl (Star r) []
| Lang_Star_app r s1 s2 :
    Lang fl r s1 → Lang fl (Star r) s2 → Lang fl (Star r) (s1 ++ s2).

End ReLang.

Import ReLang.

(** * Properties *)

(** ** The script monad *)

Lemma list_ascii_of_string_app (s1 s2 : string) :
  list_ascii_of_string (s1 +:+ s2)
  = list_ascii_of_string s1 ++ list_ascii_of_string s2.
Proof. induction s1 as [ | c s1 IH]; simpl; [reflexivity | by rewrite <- IH]. Qed.

Lemma of_string_app (s1 s2 : string) :
  of_string (s1 +:+ s2) = of_string s1 ++ of_string s2.
Proof. unfold of_string. by rewrite list_ascii_of_string_app, fmap_app. Qed.

Lemma Chr_inj (s1 s2 : list ascii) : Chr <$> s1 = Chr <$> s2 → s1 = s2.
Proof.
  revert s2. induction s1 as [ | c s1 IH]; intros [ | c2 s2]; simpl;
    try discriminate; [reflexivity |].
  intros [= -> H]. by rewrite (IH _ H).
Qed.

(** A string of code points below 256 can be written. *)
Lemma encodable_narrow (l : list ascii) : encodable (Chr <$> l) = true.
Proof. induction l as [ | c l IH]; [reflexivity | exact IH]. Qed.

Lemma encodable_app (s1 s2 : str) :
  encodable (s1 ++ s2) = encodable s1 && encodable s2.
Proof. apply forallb_app. Qed.

Lemma encodable_string (s : string) : encodable s = true.
Proof. apply encodable_narrow. Qed.

Lemma print_encodable (line : str) (w : world) :
  encodable line = true → print line w = (Ret tt, printed line w).
Proof. intros H. unfold print, bind, get. by rewrite H. Qed.

Lemma print_surrogate (line : str) (w : world) :
  encodable line = false → print line w = (Raise UnicodeEncodeError, w).
Proof. intros H. unfold print, bind, get. by rewrite H. Qed.

Lemma print_run (line : string) (w : world) :
  print line w = (Ret tt, printed line w).
Proof. apply print_encodable, encodable_string. Qed.

Lemma input_run (prompt line : string) (rest : list string) (w : world) :
  input prompt (set_stdin (line :: rest) w) = (Ret line, prompted prompt rest w).
Proof. reflexivity. Qed.

(** ** Derivatives compute the language *)

Section Derivatives.

Variable fl : flags.

Lemma Lang_Eps_inv (s : str) : Lang fl Eps s → s = [].
Proof. inversion 1; reflexivity. Qed.

Lemma Lang_Lit_inv (x : ascii) (s : str) :
  Lang fl (Lit x) s → ∃ c, s = [c] ∧ lit_ok fl x c = true.
Proof. inversion 1; subst; eauto. Qed.

Lemma Lang_In_inv (items : list item) (s : str) :
  Lang fl (In items) s → ∃ c, s = [c] ∧ set_ok fl items c = true.
Proof. inversion 1; subst; eauto. Qed.

Lemma Lang_Cat_inv (r1 r2 : regex) (s : str) :
  Lang fl (Cat r1 r2) s →
  ∃ s1 s2, s = s1 ++ s2 ∧ Lang fl r1 s1 ∧ Lang fl r2 s2.
Proof. inversion 1; subst; eauto. Qed.

Lemma Lang_Alt_inv (r1 r2 : regex) (s : str) :
  Lang fl (Alt r1 r2) s → Lang fl r1 s ∨ Lang fl r2 s.
Proof. inversion 1; subst; auto. Qed.

Lemma nullable_Lang (r : regex) : nullable r = true ↔ Lang fl r [].
Proof.
  induction r as [ | | x | items | r1 IH1 r2 IH2 | r1 IH1 r2 IH2 | r IH ]; simpl.
  - split; [discriminate | inversion 1].
  - split; [constructor | reflexivity].
  - split; [discriminate | inversion 1].
  - split; [discriminate | inversion 1].
  - rewrite andb_true_iff, IH1, IH2. split.
    + intros [H1 H2]. apply (Lang_Cat fl r1 r2 [] []); assumption.
    + intros H. apply Lang_Cat_inv in H as (s1 & s2 & Heq & H1 & H2).
      symmetry in Heq. apply app_eq_nil in Heq as [-> ->]. auto.
  - rewrite orb_true_iff, IH1, IH2. split.
    + intros [H | H]; [apply Lang_Alt_l | apply Lang_Alt_r]; assumption.
    + apply Lang_Alt_inv.
  - split; [constructor | reflexivity].
Qed.

(** A non-empty word of [r*] starts with a non-empty word of [r]. *)
Lemma Lang_Star_cons_inv (r : regex) (s : str) :
  Lang fl (Star r) s →
  ∀ c s', s = c :: s' →
  ∃ s1 s2, s' = s1 ++ s2 ∧ Lang fl r (c :: s1) ∧ Lang fl (Star r) s2.
Proof.
  intros H. remember (Star r) as r' eqn:Hr.
  induction H as [ | | | | | | r0 | r0 s1 s2 H1 _ H2 IH2 ]; try discriminate Hr.
  - intros c s' Hnil. discriminate Hnil.
  - injection Hr as ->. intros c s' Heq.
    destruct s1 as [ | c1 s1]; simpl in Heq.
    + apply (IH2 eq_refl c s' Heq).
    + injection Heq as -> <-. exists s1, s2. auto.
Qed.

Lemma deriv_Lang (c : pychar) (r : regex) (s : str) :
  Lang fl (deriv fl c r) s ↔ Lang fl r (c :: s).
Proof.
  revert s.
  induction r as [ | | x | items | r1 IH1 r2 IH2 | r1 IH1 r2 IH2 | r IH ];
    intros s; simpl.
  - split; inversion 1.
  - split; inversion 1.
  - destruct (lit_ok fl x c) eqn:E; split; intros H.
    + apply Lang_Eps_inv in H as ->. constructor; assumption.
    + apply Lang_Lit_inv in H as (c' & [= -> ->] & _). constructor.
    + inversion H.
    + apply Lang_Lit_inv in H as (c' & [= -> ->] & H). congruence.
  - destruct (set_ok fl items c) eqn:E; split; intros H.
    + apply Lang_Eps_inv in H as ->. constructor; assumption.
    + apply Lang_In_inv in H as (c' & [= -> ->] & _). constructor.
    + inversion H.
    + apply Lang_In_inv in H as (c' & [= -> ->] & H). congruence.
  - assert (Hcat : Lang fl (Cat (deriv fl c r1) r2) s →
                   Lang fl (Cat r1 r2) (c :: s)).
    { intros H. apply Lang_Cat_inv in H as (s1 & s2 & -> & H1 & H2).
      apply IH1 in H1. apply (Lang_Cat fl r1 r2 (c :: s1) s2); assumption. }
    assert (Hinv : Lang fl (Cat r1 r2) (c :: s) →
                   Lang fl (Cat (deriv fl c r1) r2) s
                   ∨ (Lang fl r1 [] ∧ Lang fl r2 (c :: s))).
    { intros H. apply Lang_Cat_inv in H as (s1 & s2 & Heq & H1 & H2).
      destruct s1 as [ | c1 s1]; simpl in Heq.
      - right. subst. auto.
      - injection Heq as -> ->. left. constructor; [apply IH1 |]; assumption. }
    destruct (nullable r1) eqn:E.
    + split.
      * intros H. apply Lang_Alt_inv in H as [H | H]; [auto |].
        apply (Lang_Cat fl r1 r2 [] (c :: s)); [apply nullable_Lang | apply IH2]; assumption.
      * intros H. apply Hinv in H as [H | [_ H]];
          [apply Lang_Alt_l | apply Lang_Alt_r; apply IH2]; assumption.
    + split; [exact Hcat |].
      intros H. apply Hinv in H as [H | [H _]]; [assumption |].
      apply nullable_Lang in H. congruence.
  - split; intros H; apply Lang_Alt_inv in H as [H | H];
      first [ apply Lang_Alt_l; apply IH1; assumption
            | apply Lang_Alt_r; apply IH2; assumption ].
  - split.
    + intros H. apply Lang_Cat_inv in H as (s1 & s2 & -> & H1 & H2).
      apply IH in H1. apply (Lang_Star_app fl r (c :: s1) s2); assumption.
    + intros H.
      destruct (Lang_Star_cons_inv r _ H c s eq_refl) as (s1 & s2 & -> & H1 & H2).
      constructor; [apply IH |]; assumption.
Qed.

(** [match_here]: a prefix is a word of [r], and the end condition holds
    after it. *)
Lemma match_here_spec (p : pattern) (r : regex) (s : str) :
  match_here fl p r s = true ↔
  ∃ s1 s2, s = s1 ++ s2 ∧ Lang fl r s1 ∧ at_end p s2 = true.
Proof.
  revert r. induction s as [ | c s IH]; intros r; simpl.
  - rewrite orb_false_r, andb_true_iff, nullable_Lang. split.
    + intros [H1 H2]. exists [], []. auto.
    + intros (s1 & s2 & Heq & H1 & H2). symmetry in Heq.
      apply app_eq_nil in Heq as [-> ->]. auto.
  - rewrite orb_true_iff, andb_true_iff, nullable_Lang, IH. split.
    + intros [[H1 H2] | (s1 & s2 & -> & H1 & H2)].
      * exists [], (c :: s). auto.
      * exists (c :: s1), s2. rewrite <- deriv_Lang. auto.
    + intros (s1 & s2 & Heq & H1 & H2). destruct s1 as [ | c1 s1]; simpl in Heq.
      * left. subst. auto.
      * injection Heq as <- ->. right. exists s1, s2.
        rewrite deriv_Lang. auto.
Qed.

Lemma search_from_spec (p : pattern) (s : str) :
  search_from fl p s = true ↔
  ∃ s0 s1 s2, s = s0 ++ s1 ++ s2 ∧ Lang fl (body p) s1 ∧ at_end p s2 = true.
Proof.
  induction s as [ | c s IH]; cbn [search_from].
  - rewrite orb_false_r, match_here_spec. split.
    + intros (s1 & s2 & Heq & H). exists [], s1, s2. auto.
    + intros (s0 & s1 & s2 & Heq & H). symmetry in Heq.
      apply app_eq_nil in Heq as [-> Heq]. exists s1, s2. auto.
  - rewrite orb_true_iff, match_here_spec, IH. split.
    + intros [(s1 & s2 & Heq & H) | (s0 & s1 & s2 & -> & H)].
      * exists [], s1, s2. auto.
      * exists (c :: s0), s1, s2. auto.
    + intros (s0 & s1 & s2 & Heq & H). destruct s0 as [ | c0 s0]; simpl in Heq.
      * left. exists s1, s2. auto.
      * injection Heq as <- ->. right. exists s0, s1, s2. auto.
Qed.

End Derivatives.

(** ** The character classes of the two patterns *)

Ltac by_cases_on_char c :=
  destruct c as [[] [] [] [] [] [] [] []]; vm_compute.

Lemma local_set_char (c : ascii) : in_set local_set c = local_char c.
Proof. by_cases_on_char c; reflexivity. Qed.

Lemma domain_set_char (c : ascii) : in_set domain_set c = domain_char c.
Proof. by_cases_on_char c; reflexivity. Qed.

Lemma alpha_set_char (c : ascii) : in_set alpha_set c = is_alpha c.
Proof. by_cases_on_char c; reflexivity. Qed.

(** No code point from 256 on equals a character of [\.edu] when the case is
    ignored. *)
Lemma lit_ok_wide (x : ascii) (n : N) :
  x ∈ ["."; "e"; "d"; "u"]%char → lit_ok IGNORECASE x (Wide n) = false.
Proof.
  intros Hx. unfold lit_ok, fold_wide.
  repeat match goal with
         | |- context [if ?b then _ else _] => destruct b
         end;
    repeat (apply elem_of_cons in Hx as [-> | Hx]; [reflexivity |]);
    by apply elem_of_nil in Hx.
Qed.

Lemma lit_ok_narrow_e (c : ascii) :
  lit_ok IGNORECASE "e" (Chr c) = true ↔ (c = "e" ∨ c = "E")%char.
Proof.
  by_cases_on_char c; split; intros H;
    solve [ discriminate H | destruct H as [H | H]; discriminate H
          | reflexivity | auto ].
Qed.

Lemma lit_ok_narrow_d (c : ascii) :
  lit_ok IGNORECASE "d" (Chr c) = true ↔ (c = "d" ∨ c = "D")%char.
Proof.
  by_cases_on_char c; split; intros H;
    solve [ discriminate H | destruct H as [H | H]; discriminate H
          | reflexivity | auto ].
Qed.

Lemma lit_ok_narrow_u (c : ascii) :
  lit_ok IGNORECASE "u" (Chr c) = true ↔ (c = "u" ∨ c = "U")%char.
Proof.
  by_cases_on_char c; split; intros H;
    solve [ discriminate H | destruct H as [H | H]; discriminate H
          | reflexivity | auto ].
Qed.

Lemma lit_ok_narrow_dot (c : ascii) :
  lit_ok IGNORECASE "." (Chr c) = true ↔ c = "."%char.
Proof.
  by_cases_on_char c; split; intros H;
    solve [ discriminate H | reflexivity ].
Qed.

Lemma lit_ok_e (c : pychar) :
  lit_ok IGNORECASE "e" c = true ↔ ∃ a, c = Chr a ∧ (a = "e" ∨ a = "E")%char.
Proof.
  destruct c as [a | n].
  - rewrite lit_ok_narrow_e. split; [eauto | by intros (? & [= <-] & H)].
  - rewrite lit_ok_wide by set_solver. split; [discriminate | by intros (? & [=] & _)].
Qed.

Lemma lit_ok_d (c : pychar) :
  lit_ok IGNORECASE "d" c = true ↔ ∃ a, c = Chr a ∧ (a = "d" ∨ a = "D")%char.
Proof.
  destruct c as [a | n].
  - rewrite lit_ok_narrow_d. split; [eauto | by intros (? & [= <-] & H)].
  - rewrite lit_ok_wide by set_solver. split; [discriminate | by intros (? & [=] & _)].
Qed.

Lemma lit_ok_u (c : pychar) :
  lit_ok IGNORECASE "u" c = true ↔ ∃ a, c = Chr a ∧ (a = "u" ∨ a = "U")%char.
Proof.
  destruct c as [a | n].
  - rewrite lit_ok_narrow_u. split; [eauto | by intros (? & [= <-] & H)].
  - rewrite lit_ok_wide by set_solver. split; [discriminate | by intros (? & [=] & _)].
Qed.

Lemma lit_ok_dot (c : pychar) :
  lit_ok IGNORECASE "." c = true ↔ c = Chr "."%char.
Proof.
  destruct c as [a | n].
  - rewrite lit_ok_narrow_dot. split; [by intros -> | by intros [= ->]].
  - rewrite lit_ok_wide by set_solver. split; discriminate.
Qed.

Lemma lit_ok_exact (x : ascii) (c : pychar) :
  lit_ok NOFLAG x c = true ↔ c = Chr x.
Proof.
  destruct c as [a | n]; simpl; [| split; discriminate].
  rewrite Ascii.eqb_eq. split; [by intros -> | by intros [= ->]].
Qed.

Lemma set_ok_exact (items : list item) (c : pychar) :
  set_ok NOFLAG items c = true ↔ ∃ a, c = Chr a ∧ in_set items a = true.
Proof.
  destruct c as [a | n]; simpl.
  - split; [eauto | by intros (? & [= <-] & H)].
  - split; [discriminate | by intros (? & [=] & _)].
Qed.

(** ** Words of repeated character classes *)

Section Classes.

Variable items : list item.

Lemma Lang_Star_In (s : str) :
  Lang NOFLAG (Star (In items)) s ↔
  ∃ l, s = Chr <$> l ∧ Forall (λ c, in_set items c = true) l.
Proof.
  split.
  - induction s as [ | c s IH]; intros H; [by exists [] |].
    destruct (Lang_Star_cons_inv NOFLAG _ _ H c s eq_refl)
      as (s1 & s2 & -> & H1 & H2).
    apply Lang_In_inv in H1 as (c' & [= <- ->] & (a & -> & Ha)%set_ok_exact).
    destruct (IH H2) as (l & Heq & Hl). simpl in Heq.
    exists (a :: l). split; [by rewrite Heq | by constructor].
  - intros (l & -> & Hl). induction Hl as [ | c l Hc _ IH]; [constructor |].
    rewrite fmap_cons.
    apply (Lang_Star_app NOFLAG _ [Chr c] (Chr <$> l)); [| exact IH].
    constructor. apply set_ok_exact. eauto.
Qed.

Lemma Lang_at_least_In (n : nat) (s : str) :
  Lang NOFLAG (at_least n (In items)) s ↔
  ∃ l, s = Chr <$> l ∧ n ≤ length l ∧ Forall (λ c, in_set items c = true) l.
Proof.
  revert s. induction n as [ | n IH]; intros s; simpl.
  - rewrite Lang_Star_In. split.
    + intros (l & Heq & Hl). exists l. split; [exact Heq | split; [lia | exact Hl]].
    + intros (l & Heq & _ & Hl). eauto.
  - split.
    + intros H. apply Lang_Cat_inv in H as (s1 & s2 & -> & H1 & H2).
      apply Lang_In_inv in H1 as (c & -> & (a & -> & Ha)%set_ok_exact).
      apply IH in H2 as (l & -> & Hn & Hall).
      exists (a :: l). split; [reflexivity |]. simpl. split; [lia |].
      by constructor.
    + intros (l & -> & Hn & Hall). destruct l as [ | c l]; simpl in Hn; [lia |].
      apply Forall_cons in Hall as [Hc Hs]. rewrite fmap_cons.
      apply (Lang_Cat NOFLAG _ _ [Chr c] (Chr <$> l)).
      * constructor. apply set_ok_exact. eauto.
      * apply IH. exists l. split; [reflexivity | split; [lia | exact Hs]].
Qed.

Lemma Lang_plus_In (s : str) :
  Lang NOFLAG (plus (In items)) s ↔
  ∃ l, s = Chr <$> l ∧ l ≠ [] ∧ Forall (λ c, in_set items c = true) l.
Proof.
  change (plus (In items)) with (at_least 1 (In items)).
  rewrite Lang_at_least_In. split; intros (l & Heq & H1 & H2); exists l;
    (split; [exact Heq | split; [| exact H2]]); destruct l; simpl in *;
    solve [ lia | congruence ].
Qed.

End Classes.

(** ** The two patterns against the words of the specification *)

Lemma email_body_shape (s : str) :
  Lang NOFLAG (body email_pattern) s ↔ ∃ l, s = Chr <$> l ∧ shape l.
Proof.
  unfold shape. cbn [body email_pattern]. split.
  - intros H.
    apply Lang_Cat_inv in H as (l & s1 & -> & Hl & H).
    apply Lang_Cat_inv in H as (a & s2 & -> & Ha & H).
    apply Lang_Cat_inv in H as (d & s3 & -> & Hd & H).
    apply Lang_Cat_inv in H as (b & t & -> & Hb & Ht).
    apply Lang_Lit_inv in Ha as (ca & -> & ->%lit_ok_exact).
    apply Lang_Lit_inv in Hb as (cb & -> & ->%lit_ok_exact).
    apply Lang_plus_In in Hl as (l' & -> & Hl1 & Hl2).
    apply Lang_plus_In in Hd as (d' & -> & Hd1 & Hd2).
    apply Lang_at_least_In in Ht as (t' & -> & Ht1 & Ht2).
    exists (l' ++ "@"%char :: d' ++ "."%char :: t').
    split; [by rewrite fmap_app, fmap_cons, fmap_app, fmap_cons |].
    exists l', d', t'. repeat split; try assumption.
    + eapply Forall_impl; [exact Hl2 |].
      intros c Hc; cbv beta in *. by rewrite <- Hc, local_set_char.
    + eapply Forall_impl; [exact Hd2 |].
      intros c Hc; cbv beta in *. by rewrite <- Hc, domain_set_char.
    + eapply Forall_impl; [exact Ht2 |].
      intros c Hc; cbv beta in *. by rewrite <- Hc, alpha_set_char.
  - intros (s' & -> & l & d & t & -> & Hl1 & Hl2 & Hd1 & Hd2 & Ht1 & Ht2).
    rewrite fmap_app, fmap_cons, fmap_app, fmap_cons.
    apply Lang_Cat.
    { apply Lang_plus_In. exists l. split; [reflexivity | split; [assumption |]].
      eapply Forall_impl; [exact Hl2 |].
      intros c Hc; cbv beta in *. by rewrite <- Hc, local_set_char. }
    apply (Lang_Cat NOFLAG _ _ [Chr "@"%char]); [constructor; reflexivity |].
    apply Lang_Cat.
    { apply Lang_plus_In. exists d. split; [reflexivity | split; [assumption |]].
      eapply Forall_impl; [exact Hd2 |].
      intros c Hc; cbv beta in *. by rewrite <- Hc, domain_set_char. }
    apply (Lang_Cat NOFLAG _ _ [Chr "."%char]); [constructor; reflexivity |].
    apply Lang_at_least_In. exists t. split; [reflexivity | split; [assumption |]].
    eapply Forall_impl; [exact Ht2 |].
    intros c Hc; cbv beta in *. by rewrite <- Hc, alpha_set_char.
Qed.

Lemma edu_body_word (x : str) :
  Lang IGNORECASE (body edu_pattern) x ↔ ∃ x', x = Chr <$> x' ∧ edu_word x'.
Proof.
  unfold edu_word. cbn [body edu_pattern]. split.
  - intros H.
    apply Lang_Cat_inv in H as (a & s1 & -> & Ha & H).
    apply Lang_Cat_inv in H as (b & s2 & -> & Hb & H).
    apply Lang_Cat_inv in H as (c & s3 & -> & Hc & Hd).
    apply Lang_Lit_inv in Ha as (ca & -> & ->%lit_ok_dot).
    apply Lang_Lit_inv in Hb as (ce & -> & (e & -> & He)%lit_ok_e).
    apply Lang_Lit_inv in Hc as (cd & -> & (d & -> & Hd')%lit_ok_d).
    apply Lang_Lit_inv in Hd as (cu & -> & (u & -> & Hu)%lit_ok_u).
    exists ["."%char; e; d; u]. split; [reflexivity |].
    exists e, d, u. auto.
  - intros (x' & -> & e & d & u & -> & He & Hd & Hu).
    apply (Lang_Cat IGNORECASE _ _ [Chr "."%char]); [constructor; reflexivity |].
    apply (Lang_Cat IGNORECASE _ _ [Chr e]);
      [constructor; apply lit_ok_e; eauto |].
    apply (Lang_Cat IGNORECASE _ _ [Chr d] [Chr u]); constructor;
      [apply lit_ok_d | apply lit_ok_u]; eauto.
Qed.

Lemma at_dollar_spec (rest : str) :
  at_dollar rest = true ↔ rest = [] ∨ rest = [Chr LF].
Proof.
  destruct rest as [ | [c | n] [ | c' rest]]; simpl.
  - split; auto.
  - rewrite Ascii.eqb_eq. split; [intros ->; auto |].
    intros [H | [= ->]]; [discriminate H | reflexivity].
  - split; [discriminate | intros [H | H]; discriminate H].
  - split; [discriminate | intros [H | H]; discriminate H].
  - split; [discriminate | intros [H | H]; discriminate H].
Qed.

(** [re.match(email_pattern, s)] succeeds on the strings of the shape, and on
    those followed by one newline. *)
Lemma re_match_email_str (s : str) :
  re_match email_pattern s NOFLAG = true ↔
  ∃ l, shape l ∧ (s = Chr <$> l ∨ s = (Chr <$> l) ++ [Chr LF]).
Proof.
  unfold re_match. rewrite match_here_spec. split.
  - intros (s1 & s2 & -> & (l & -> & Hl)%email_body_shape & H2).
    exists l. split; [exact Hl |].
    apply at_dollar_spec in H2 as [-> | ->]; [left; by rewrite app_nil_r | by right].
  - intros (l & Hl & [-> | ->]).
    + exists (Chr <$> l), []. rewrite app_nil_r, email_body_shape. eauto.
    + exists (Chr <$> l), [Chr LF]. rewrite email_body_shape. eauto.
Qed.

Lemma re_match_email (s : string) :
  re_match email_pattern s NOFLAG = true ↔
  email_shape s ∨ ∃ s', list_ascii_of_string s = s' ++ [LF] ∧ shape s'.
Proof.
  rewrite re_match_email_str. unfold email_shape, of_string. split.
  - intros (l & Hl & [Heq | Heq]).
    + left. by rewrite (Chr_inj _ _ Heq).
    + right. exists l. split; [| exact Hl].
      apply Chr_inj. by rewrite Heq, fmap_app.
  - intros [H | (s' & Heq & H)].
    + eauto.
    + exists s'. split; [exact H |]. right. by rewrite Heq, fmap_app.
Qed.

(** [re.search(edu_pattern, s, re.IGNORECASE)] succeeds when [.edu] ends the
    string, or is followed by one newline that ends it. *)
Lemma re_search_edu_str (s : str) :
  re_search edu_pattern s IGNORECASE = true ↔
  ∃ p x rest, s = p ++ (Chr <$> x) ++ rest
              ∧ edu_word x ∧ (rest = [] ∨ rest = [Chr LF]).
Proof.
  unfold re_search. cbn [bol edu_pattern]. rewrite search_from_spec. split.
  - intros (p & x & rest & -> & (x' & -> & Hx)%edu_body_word & H2%at_dollar_spec).
    exists p, x', rest. auto.
  - intros (p & x & rest & -> & Hx & H2). exists p, (Chr <$> x), rest.
    split; [reflexivity |]. rewrite edu_body_word.
    split; [eauto | by apply at_dollar_spec].
Qed.

Lemma re_search_edu (s : string) :
  re_search edu_pattern s IGNORECASE = true ↔
  ∃ p x rest, list_ascii_of_string s = p ++ x ++ rest
              ∧ edu_word x ∧ (rest = [] ∨ rest = [LF]).
Proof.
  rewrite re_search_edu_str. unfold of_string. split.
  - intros (p & x & rest & Heq & Hx & Hrest).
    apply fmap_app_inv in Heq as (p' & r' & -> & Heq & Hs). symmetry in Heq.
    apply fmap_app_inv in Heq as (x' & rest' & Hx' & -> & ->).
    apply Chr_inj in Hx' as <-.
    exists p', x, rest'. split; [exact Hs | split; [exact Hx |]].
    destruct Hrest as [Hr | Hr].
    + left. by apply fmap_nil_inv in Hr.
    + right. destruct rest' as [ | c [ | c' r]]; try discriminate Hr.
      by injection Hr as ->.
  - intros (p & x & rest & Heq & Hx & Hrest).
    exists (Chr <$> p), x, (Chr <$> rest).
    split; [by rewrite Heq, !fmap_app |]. split; [exact Hx |].
    destruct Hrest as [-> | ->]; auto.
Qed.

(** A string of the shape ends with a letter, so not with a newline. *)
Lemma shape_last_alpha (s : list ascii) :
  shape s → ∃ s' c, s = s' ++ [c] ∧ is_alpha c = true.
Proof.
  intros (l & d & t & -> & _ & _ & _ & _ & Ht1 & Ht2).
  destruct (decide (t = [])) as [-> | Hne]; [simpl in Ht1; lia |].
  apply exists_last in Hne as (t' & c & ->).
  apply Forall_app in Ht2 as [_ Hc]. inversion Hc as [ | ? ? Hc' _]; subst.
  exists (l ++ "@"%char :: d ++ "."%char :: t'), c. split; [| exact Hc'].
  by rewrite <- !app_assoc, <- !app_comm_cons, <- app_assoc, <- app_comm_cons.
Qed.

Lemma shape_no_final_newline (s s' : list ascii) : shape s → s ≠ s' ++ [LF].
Proof.
  intros (s0 & c & -> & Hc)%shape_last_alpha Heq.
  apply app_inj_tail in Heq as [_ ->]. discriminate Hc.
Qed.

(** ** [validate_edu_email], branch by branch *)

Lemma encodable_message (message : string) (email : str) :
  encodable (of_string message ++ email) = encodable email.
Proof. by rewrite encodable_app, encodable_string. Qed.

(** A candidate the console cannot write: whichever branch is taken, its
    [print] raises and nothing is written. *)
Lemma validate_unencodable (email : str) (w : world) :
  encodable email = false →
  validate_edu_email email w = (Raise UnicodeEncodeError, w).
Proof.
  intros H. unfold validate_edu_email.
  destruct (negb (re_match _ _ _)); [| destruct (negb (re_search _ _ _))];
    unfold bind; by rewrite print_surrogate by by rewrite encodable_message.
Qed.

Lemma validate_str_invalid_format (email : str) (w : world) :
  encodable email = true →
  re_match email_pattern email NOFLAG = false →
  validate_edu_email email w
  = (Ret false, printed (of_string "Invalid email format: " ++ email) w).
Proof.
  intros He H. unfold validate_edu_email. rewrite H. cbn [negb]. unfold bind.
  by rewrite print_encodable by by rewrite encodable_message.
Qed.

Lemma validate_str_not_edu (email : str) (w : world) :
  encodable email = true →
  re_match email_pattern email NOFLAG = true →
  re_search edu_pattern email IGNORECASE = false →
  validate_edu_email email w
  = (Ret false,
     printed (of_string "Email does not end with .edu: " ++ email) w).
Proof.
  intros He H1 H2. unfold validate_edu_email. rewrite H1, H2. cbn [negb].
  unfold bind.
  by rewrite print_encodable by by rewrite encodable_message.
Qed.

Lemma validate_str_valid (email : str) (w : world) :
  encodable email = true →
  re_match email_pattern email NOFLAG = true →
  re_search edu_pattern email IGNORECASE = true →
  validate_edu_email email w
  = (Ret true, printed (of_string "Valid .edu email: " ++ email) w).
Proof.
  intros He H1 H2. unfold validate_edu_email. rewrite H1, H2. cbn [negb].
  unfold bind.
  by rewrite print_encodable by by rewrite encodable_message.
Qed.

Lemma validate_invalid_format (email : string) (w : world) :
  re_match email_pattern email NOFLAG = false →
  validate_edu_email email w
  = (Ret false, printed ("Invalid email format: " +:+ email) w).
Proof.
  intros H. rewrite of_string_app.
  by apply validate_str_invalid_format; [apply encodable_string |].
Qed.

Lemma validate_not_edu (email : string) (w : world) :
  re_match email_pattern email NOFLAG = true →
  re_search edu_pattern email IGNORECASE = false →
  validate_edu_email email w
  = (Ret false, printed ("Email does not end with .edu: " +:+ email) w).
Proof.
  intros H1 H2. rewrite of_string_app.
  by apply validate_str_not_edu; [apply encodable_string | |].
Qed.

Lemma validate_valid (email : string) (w : world) :
  re_match email_pattern email NOFLAG = true →
  re_search edu_pattern email IGNORECASE = true →
  validate_edu_email email w
  = (Ret true, printed ("Valid .edu email: " +:+ email) w).
Proof.
  intros H1 H2. rewrite of_string_app.
  by apply validate_str_valid; [apply encodable_string | |].
Qed.

(** On a string of the shape, the search for [\.edu$] finds the suffix and
    nothing else. *)
Lemma re_search_edu_on_shape (s : string) :
  email_shape s →
  re_search edu_pattern s IGNORECASE = true ↔ ends_with_edu s.
Proof.
  intros Hs. rewrite re_search_edu. unfold ends_with_edu. split.
  - intros (p & x & rest & Heq & Hx & [-> | ->]).
    + exists p, x. by rewrite app_nil_r in Heq.
    + exfalso. apply (shape_no_final_newline _ (p ++ x) Hs).
      by rewrite <- app_assoc.
  - intros (p & x & Heq & Hx). exists p, x, []. rewrite app_nil_r. auto.
Qed.

(** The strings the validator accepts. *)
Lemma validate_accepts (email : string) (w : world) :
  fst (validate_edu_email email w) = Ret true ↔
  (email_shape email ∧ ends_with_edu email)
  ∨ ∃ s', list_ascii_of_string email = s' ++ [LF]
          ∧ shape s' ∧ ∃ p x, s' = p ++ x ∧ edu_word x.
Proof.
  destruct (re_match email_pattern email NOFLAG) eqn:Hm.
  - destruct (re_search edu_pattern email IGNORECASE) eqn:Hs.
    + rewrite (validate_valid _ _ Hm Hs). simpl.
      apply re_match_email in Hm as [Hm | (s' & Heq & Hm)].
      * apply (re_search_edu_on_shape _ Hm) in Hs. tauto.
      * split; [intros _ | reflexivity]. right. exists s'.
        split; [exact Heq | split; [exact Hm |]].
        apply re_search_edu in Hs as (p & x & rest & Heq' & Hx & [-> | ->]).
        -- exfalso. destruct Hx as (e & d & u & -> & _ & _ & Hu).
           rewrite Heq in Heq'. rewrite app_nil_r in Heq'.
           change (p ++ ["."%char; e; d; u]) with (p ++ ["."%char; e; d] ++ [u]) in Heq'.
           rewrite app_assoc in Heq'. apply app_inj_tail in Heq' as [_ <-].
           destruct Hu as [Hu | Hu]; discriminate Hu.
        -- exists p, x. split; [| exact Hx].
           rewrite Heq, app_assoc in Heq'. by apply app_inj_tail in Heq' as [-> _].
    + rewrite (validate_not_edu _ _ Hm Hs). simpl. split; [discriminate |].
      intros [[H1 H2] | (s' & Heq & H1 & p & x & -> & Hx)].
      * apply (re_search_edu_on_shape _ H1) in H2. congruence.
      * assert (re_search edu_pattern email IGNORECASE = true); [| congruence].
        apply re_search_edu. exists p, x, [LF]. rewrite Heq, <- app_assoc. auto.
  - rewrite (validate_invalid_format _ _ Hm). simpl. split; [discriminate |].
    intros H. assert (re_match email_pattern email NOFLAG = true); [| congruence].
    apply re_match_email. destruct H as [[H _] | (s' & Heq & H & _)]; eauto.
Qed.

(** A string is of the shape exactly when the first test of the validator
    passes and the string does not end with a newline. *)
Lemma email_shape_iff (s : string) :
  email_shape s ↔
  re_match email_pattern s NOFLAG = true ∧ last (list_ascii_of_string s) ≠ Some LF.
Proof.
  rewrite re_match_email. split.
  - intros H. split; [auto |]. intros (s' & Heq)%last_Some.
    exact (shape_no_final_newline _ s' H Heq).
  - intros [[H | (s' & Heq & _)] Hlast]; [exact H |].
    exfalso. apply Hlast. rewrite Heq. apply last_snoc.
Qed.

(** The second and third branches, in the words of the specification. *)
Lemma validate_on_shape_with_edu (email : string) (w : world) :
  email_shape email → ends_with_edu email →
  validate_edu_email email w
  = (Ret true, printed ("Valid .edu email: " +:+ email) w).
Proof.
  intros Hs He. apply validate_valid.
  - apply re_match_email. auto.
  - by apply re_search_edu_on_shape.
Qed.

Lemma validate_on_shape_without_edu (email : string) (w : world) :
  email_shape email → ¬ ends_with_edu email →
  validate_edu_email email w
  = (Ret false, printed ("Email does not end with .edu: " +:+ email) w).
Proof.
  intros Hs He. apply validate_not_edu.
  - apply re_match_email. auto.
  - destruct (re_search edu_pattern email IGNORECASE) eqn:E; [| reflexivity].
    apply (re_search_edu_on_shape _ Hs) in E. contradiction.
Qed.

(** ** The validator: the claims *)

(** C1.  The specification has the validator answer the empty string with
    "Empty email address", as the first step of the design notes at the head
    of the file does.  [validate_edu_email] has no such step: the empty
    string fails the first pattern and is answered with the message of the
    format check. *)
Theorem validate_empty_string (w : world) :
  validate_edu_email "" w = (Ret false, printed "Invalid email format: " w)
  ∧ validate_edu_email "" w ≠ (Ret false, printed "Empty email address" w).
Proof.
  split; [reflexivity |].
  intros H. apply (f_equal (λ r, stdout (snd r))) in H. simpl in H.
  apply app_inv_head in H. discriminate H.
Qed.

(** C4.  A string of the e-mail shape that does not end with [.edu], in any
    case of the letters, is refused with the second message, "Email does not
    end with .edu"; so are "student@school.com" and "a@b.education". *)
Theorem validate_shape_without_edu :
  (∀ (email : string) (w : world),
      email_shape email → ¬ ends_with_edu email →
      validate_edu_email email w
      = (Ret false, printed ("Email does not end with .edu: " +:+ email) w))
  ∧ (∀ w, validate_edu_email "student@school.com" w
          = (Ret false, printed "Email does not end with .edu: student@school.com" w))
  ∧ (∀ w, validate_edu_email "a@b.education" w
          = (Ret false, printed "Email does not end with .edu: a@b.education" w)).
Proof.
  split; [| split; intros w; reflexivity].
  intros email w. apply validate_on_shape_without_edu.
Qed.

Lemma validate_shape_without_edu_witness :
  email_shape "student@school.com" ∧ ¬ ends_with_edu "student@school.com"
  ∧ validate_edu_email "student@school.com" (World [] [] ∅ true [] None)
    = (Ret false,
       World [] [Print "Email does not end with .edu: student@school.com"]
         ∅ true [] None).
Proof.
  assert (Hs : email_shape "student@school.com").
  { apply email_shape_iff. split; [reflexivity | discriminate]. }
  assert (He : ¬ ends_with_edu "student@school.com").
  { rewrite <- (re_search_edu_on_shape _ Hs). discriminate. }
  split; [exact Hs | split; [exact He |]].
  exact (proj1 validate_shape_without_edu _ _ Hs He).
Defined.

(** C5.  A string of the e-mail shape that ends with [.edu], in any case of
    the letters, is accepted with "Valid .edu email"; so are
    "student@university.edu" and "STUDENT@SCHOOL.EDU". *)
Theorem validate_shape_with_edu :
  (∀ (email : string) (w : world),
      email_shape email → ends_with_edu email →
      validate_edu_email email w
      = (Ret true, printed ("Valid .edu email: " +:+ email) w))
  ∧ (∀ w, validate_edu_email "student@university.edu" w
          = (Ret true, printed "Valid .edu email: student@university.edu" w))
  ∧ (∀ w, validate_edu_email "STUDENT@SCHOOL.EDU" w
          = (Ret true, printed "Valid .edu email: STUDENT@SCHOOL.EDU" w)).
Proof.
  split; [| split; intros w; reflexivity].
  intros email w. apply validate_on_shape_with_edu.
Qed.

Lemma validate_shape_with_edu_witness :
  email_shape "STUDENT@SCHOOL.EDU" ∧ ends_with_edu "STUDENT@SCHOOL.EDU"
  ∧ validate_edu_email "STUDENT@SCHOOL.EDU" (World [] [] ∅ true [] None)
    = (Ret true,
       World [] [Print "Valid .edu email: STUDENT@SCHOOL.EDU"] ∅ true [] None).
Proof.
  assert (Hs : email_shape "STUDENT@SCHOOL.EDU").
  { apply email_shape_iff. split; [reflexivity | discriminate]. }
  assert (He : ends_with_edu "STUDENT@SCHOOL.EDU").
  { rewrite <- (re_search_edu_on_shape _ Hs). reflexivity. }
  split; [exact Hs | split; [exact He |]].
  exact (proj1 validate_shape_with_edu _ _ Hs He).
Defined.

(** C6.  The specification has every string that the pattern does not match
    as a whole refused with "Invalid email format".  The pattern ends with
    [$], which Python also lets match just before a final newline: an
    address followed by a newline is not of the shape, passes both tests
    and is accepted.  A string such as "not-an-email" is refused as
    stated. *)
Theorem validate_accepts_final_newline (w : world) :
  let email := "student@university.edu" +:+ String LF "" in
  ¬ email_shape email
  ∧ validate_edu_email email w
    = (Ret true, printed ("Valid .edu email: " +:+ email) w)
  ∧ validate_edu_email "not-an-email" w
    = (Ret false, printed "Invalid email format: not-an-email" w).
Proof.
  split; [| split; reflexivity].
  intros [_ H]%email_shape_iff. apply H. reflexivity.
Qed.

(** What does hold of the first branch: a string that is not of the shape,
    also when one final newline is set aside, is refused with the message of
    the format check. *)
Lemma validate_refuses_other_shapes (email : string) (w : world) :
  ¬ email_shape email →
  (∀ s', list_ascii_of_string email = s' ++ [LF] → ¬ shape s') →
  validate_edu_email email w
  = (Ret false, printed ("Invalid email format: " +:+ email) w).
Proof.
  intros H1 H2. apply validate_invalid_format.
  destruct (re_match email_pattern email NOFLAG) eqn:E; [| reflexivity].
  apply re_match_email in E as [E | (s' & Heq & E)]; [contradiction |].
  destruct (H2 s' Heq E).
Qed.


(** C10.  The pattern does not say where the dots of the domain go: an
    address whose domain has two dots in a row, or starts with a dot, is
    accepted, as is "a@" followed by any characters of the domain class and
    ".edu". *)
Theorem validate_accepts_any_dots :
  (∀ w, validate_edu_email "a@b..edu" w
        = (Ret true, printed "Valid .edu email: a@b..edu" w))
  ∧ (∀ w, validate_edu_email "a@.b.edu" w
          = (Ret true, printed "Valid .edu email: a@.b.edu" w))
  ∧ (∀ (d : string) (w : world),
        d ≠ "" →
        Forall (λ c, domain_char c = true) (list_ascii_of_string d) →
        validate_edu_email ("a@" +:+ d +:+ ".edu") w
        = (Ret true, printed ("Valid .edu email: " +:+ "a@" +:+ d +:+ ".edu") w)).
Proof.
  split; [| split]; [intros w; reflexivity .. |].
  intros d w Hd Hall. apply validate_on_shape_with_edu.
  - exists ["a"%char], (list_ascii_of_string d), ["e"; "d"; "u"]%char.
    repeat split.
    + rewrite !list_ascii_of_string_app. reflexivity.
    + discriminate.
    + repeat constructor.
    + intros Hnil. apply Hd. destruct d; [reflexivity | discriminate Hnil].
    + exact Hall.
    + simpl. lia.
    + repeat constructor.
  - exists ("a"%char :: "@"%char :: list_ascii_of_string d), [".";"e";"d";"u"]%char.
    split; [rewrite !list_ascii_of_string_app; reflexivity |].
    exists "e"%char, "d"%char, "u"%char. auto.
Qed.

Lemma validate_accepts_any_dots_witness :
  ".." ≠ "" ∧ Forall (λ c, domain_char c = true) (list_ascii_of_string "..")
  ∧ validate_edu_email "a@...edu" (World [] [] ∅ true [] None)
    = (Ret true, World [] [Print "Valid .edu email: a@...edu"] ∅ true [] None).
Proof.
  assert (H1 : ".." ≠ "") by discriminate.
  assert (H2 : Forall (λ c, domain_char c = true) (list_ascii_of_string ".."))
    by (repeat constructor).
  split; [exact H1 | split; [exact H2 |]].
  exact (proj2 (proj2 validate_accepts_any_dots) ".." _ H1 H2).
Defined.

(** ** [strip] *)

Lemma lstrip_no_leading_space (l : list ascii) : no_leading_space (lstrip_list l).
Proof.
  induction l as [ | c l IH]; simpl; [exact I |].
  destruct (isspace c) eqn:E; [exact IH | exact E].
Qed.

Lemma lstrip_fixed (l : list ascii) : no_leading_space l → lstrip_list l = l.
Proof. destruct l as [ | c l]; simpl; [reflexivity | by intros ->]. Qed.

(** [lstrip] drops a prefix. *)
Lemma lstrip_suffix (l : list ascii) : ∃ sp, l = sp ++ lstrip_list l.
Proof.
  induction l as [ | c l [sp IH]]; simpl; [by exists [] |].
  destruct (isspace c); [| by exists []].
  exists (c :: sp). simpl. by rewrite <- IH.
Qed.

(** Stripping the right end keeps the left end clean. *)
Lemma rstrip_no_leading_space (l : list ascii) :
  no_leading_space l → no_leading_space (rev (lstrip_list (rev l))).
Proof.
  intros Hl. destruct (lstrip_suffix (rev l)) as [sp Hsp].
  apply (f_equal (@rev ascii)) in Hsp. rewrite rev_involutive, rev_app_distr in Hsp.
  destruct (rev (lstrip_list (rev l))) as [ | c k]; [exact I |].
  rewrite Hsp in Hl. exact Hl.
Qed.

Lemma strip_list_idempotent (l : list ascii) :
  strip_list (strip_list l) = strip_list l.
Proof.
  unfold strip_list at 1.
  rewrite (lstrip_fixed (strip_list l))
    by apply rstrip_no_leading_space, lstrip_no_leading_space.
  unfold strip_list. rewrite rev_involutive.
  by rewrite (lstrip_fixed (lstrip_list _)) by apply lstrip_no_leading_space.
Qed.

Lemma strip_idempotent (s : string) : strip (strip s) = strip s.
Proof.
  unfold strip. by rewrite list_ascii_of_string_of_list_ascii, strip_list_idempotent.
Qed.

(** [strip] removes the white space of both ends and nothing else. *)

Lemma lstrip_blank_prefix (pre l : list ascii) :
  blank pre → lstrip_list (pre ++ l) = lstrip_list l.
Proof.
  induction 1 as [ | c pre Hc _ IH]; simpl; [reflexivity | by rewrite Hc].
Qed.

Lemma blank_rev (l : list ascii) : blank l → blank (rev l).
Proof. apply List.Forall_rev. Qed.

Lemma lstrip_blank (l : list ascii) : blank l → lstrip_list l = [].
Proof.
  intros H. rewrite <- (app_nil_r l). by rewrite lstrip_blank_prefix.
Qed.

Lemma strip_list_padded (pre core post : list ascii) :
  blank pre → blank post → trimmed core →
  strip_list (pre ++ core ++ post) = core.
Proof.
  intros Hpre Hpost [Hl Hr]. unfold strip_list.
  rewrite lstrip_blank_prefix by exact Hpre.
  destruct core as [ | c core].
  - simpl. by rewrite (lstrip_blank post) by exact Hpost.
  - rewrite (lstrip_fixed ((c :: core) ++ post)) by exact Hl.
    rewrite rev_app_distr, lstrip_blank_prefix by by apply blank_rev.
    by rewrite lstrip_fixed, rev_involutive.
Qed.

Lemma strip_padded (pre core post : string) :
  blank (list_ascii_of_string pre) → blank (list_ascii_of_string post) →
  trimmed (list_ascii_of_string core) →
  strip (pre +:+ core +:+ post) = core.
Proof.
  intros Hpre Hpost Hcore. unfold strip.
  rewrite !list_ascii_of_string_app, strip_list_padded by assumption.
  apply string_of_list_ascii_of_string.
Qed.

Lemma strip_trimmed (core : string) :
  trimmed (list_ascii_of_string core) → strip core = core.
Proof.
  intros Hcore. unfold strip.
  pose proof (strip_list_padded [] (list_ascii_of_string core) []) as H.
  simpl in H. rewrite app_nil_r in H.
  rewrite H by (assumption || constructor).
  apply string_of_list_ascii_of_string.
Qed.

(** What [lstrip] drops is white space. *)
Lemma lstrip_split (l : list ascii) :
  ∃ sp, blank sp ∧ l = sp ++ lstrip_list l.
Proof.
  induction l as [ | c l (sp & Hsp & IH)]; simpl;
    [exists []; split; [constructor | reflexivity] |].
  destruct (isspace c) eqn:E; [| exists []; split; [constructor | reflexivity]].
  exists (c :: sp). split; [by constructor | simpl; by rewrite <- IH].
Qed.

(** Every line is white space, then its stripped form, then white space. *)
Lemma strip_list_split (l : list ascii) :
  ∃ pre post, blank pre ∧ blank post
              ∧ l = pre ++ strip_list l ++ post ∧ trimmed (strip_list l).
Proof.
  destruct (lstrip_split l) as (pre & Hpre & Hl).
  destruct (lstrip_split (rev (lstrip_list l))) as (sp & Hsp & Hr).
  exists pre, (rev sp). split; [exact Hpre |]. split; [by apply blank_rev |].
  unfold strip_list. split.
  - rewrite <- rev_app_distr, <- Hr, rev_involutive. exact Hl.
  - split.
    + apply rstrip_no_leading_space, lstrip_no_leading_space.
    + rewrite rev_involutive. apply lstrip_no_leading_space.
Qed.

Lemma string_of_list_ascii_app (l1 l2 : list ascii) :
  string_of_list_ascii (l1 ++ l2)
  = string_of_list_ascii l1 +:+ string_of_list_ascii l2.
Proof. induction l1 as [ | c l1 IH]; simpl; [reflexivity | by rewrite IH]. Qed.

Lemma strip_split (line : string) :
  ∃ pre post : string,
    line = pre +:+ strip line +:+ post
    ∧ blank (list_ascii_of_string pre) ∧ blank (list_ascii_of_string post)
    ∧ trimmed (list_ascii_of_string (strip line)).
Proof.
  destruct (strip_list_split (list_ascii_of_string line))
    as (pre & post & Hpre & Hpost & Heq & Ht).
  exists (string_of_list_ascii pre), (string_of_list_ascii post).
  unfold strip. rewrite !list_ascii_of_string_of_list_ascii.
  split; [| split; [exact Hpre | split; [exact Hpost | exact Ht]]].
  transitivity (string_of_list_ascii
                  (pre ++ strip_list (list_ascii_of_string line) ++ post)).
  - by rewrite <- Heq, string_of_list_ascii_of_string.
  - by rewrite !string_of_list_ascii_app.
Qed.

(** ** [main] *)

Lemma main_run (line : string) (rest : list string) (w : world) :
  main (set_stdin (line :: rest) w)
  = (ok <- validate_edu_email (strip line) ;;
     if negb ok then print "Invalid email address"
     else print "Valid email address")
      (prompted "Enter email address: " rest w).
Proof. unfold main. unfold bind at 1. by rewrite input_run. Qed.

(** C9.  [main] hands the line it read to the validator with the white space
    of both ends removed.  Every line is white space, a text that neither
    starts nor ends with white space, and white space again; the text is
    what [strip] returns, the run of [main] on the line is the validator's
    on the text, followed by the verdict, and it is the run of [main] on
    the text alone.  An address between spaces is judged valid. *)
Theorem main_strips_input :
  (∀ (line : string) (rest : list string) (w : world),
      ∃ pre core post : string,
        line = pre +:+ core +:+ post
        ∧ blank (list_ascii_of_string pre)
        ∧ blank (list_ascii_of_string post)
        ∧ trimmed (list_ascii_of_string core)
        ∧ strip line = core
        ∧ main (set_stdin (line :: rest) w)
          = (ok <- validate_edu_email core ;;
             if negb ok then print "Invalid email address"
             else print "Valid email address")
              (prompted "Enter email address: " rest w)
        ∧ main (set_stdin (line :: rest) w)
          = main (set_stdin (core :: rest) w))
  ∧ (∀ (rest : list string) (w : world),
        main (set_stdin ("  student@university.edu  " :: rest) w)
        = (Ret tt,
           printed "Valid email address"
             (printed "Valid .edu email: student@university.edu"
                (prompted "Enter email address: " rest w)))).
Proof.
  split.
  - intros line rest w.
    destruct (strip_split line) as (pre & post & Heq & Hpre & Hpost & Ht).
    exists pre, (strip line), post.
    split; [exact Heq |]. split; [exact Hpre |]. split; [exact Hpost |].
    split; [exact Ht |]. split; [reflexivity |]. split.
    + apply main_run.
    + by rewrite !main_run, (strip_trimmed (strip line)).
  - intros rest w. rewrite main_run. reflexivity.
Qed.

(** ** image_store.py *)

Section SchemaFacts.

Variable collate : string → string → bool.
Variable unique_name : bool.

Lemma filter_none (name : string) (t : list row) :
  Forall (λ r, collate (image_name r) name = false) t →
  List.filter (matches_name collate name) t = [].
Proof.
  induction 1 as [ | r t Hr _ IH]; simpl; [reflexivity |].
  unfold matches_name at 1. by rewrite Hr.
Qed.

Lemma existsb_none (name : string) (t : list row) :
  Forall (λ r, collate (image_name r) name = false) t →
  existsb (matches_name collate name) t = false.
Proof.
  induction 1 as [ | r t Hr _ IH]; simpl; [reflexivity |].
  unfold matches_name at 1. by rewrite Hr.
Qed.

(** The upload, outcome by outcome. *)
Lemma upload_image_run (path name : string) (w : world) :
  upload_image collate unique_name path name w
  = if reachable w then
      match files w !! path with
      | None => (Raise FileNotFoundError, set_session (Some []) w)
      | Some data =>
          if unique_name && existsb (matches_name collate name) (image_store w)
          then (Raise IntegrityError, set_session (Some []) w)
          else (Ret tt,
                set_session None
                  (printed "Image uploaded successfully."
                     (set_image_store (image_store w ++ [Row name data]) w)))
      end
    else (Raise InterfaceError, w).
Proof.
  destruct w as [i o f r t s].
  unfold upload_image, connect, read_file, execute_insert, commit, close,
    print, bind, get, put, ret, raise, printed; cbn.
  destruct r; cbn; [| reflexivity].
  destruct (f !! path) as [data | ]; cbn; [| reflexivity].
  rewrite app_nil_r.
  destruct (unique_name && existsb (matches_name collate name) t); reflexivity.
Qed.

(** The retrieve, outcome by outcome. *)
Lemma retrieve_image_run (name out : string) (w : world) :
  retrieve_image collate name out w
  = if reachable w then
      match List.filter (matches_name collate name) (image_store w) with
      | [] => (Raise TypeError, set_session (Some []) w)
      | r :: others =>
          let w' := printed "Image retrieved and written to file."
                      (set_files (<[out := image_data r]> (files w)) w) in
          match others with
          | [] => (Ret tt, set_session None w')
          | _ :: _ => (Raise InternalError, set_session (Some []) w')
          end
      end
    else (Raise InterfaceError, w).
Proof.
  destruct w as [i o f r t s].
  unfold retrieve_image, connect, execute_select, bind, get, put, ret, raise;
    cbn.
  destruct r; cbn; [| reflexivity].
  rewrite app_nil_r.
  destruct (List.filter (matches_name collate name) t) as [ | r [ | r' others]];
    reflexivity.
Qed.

End SchemaFacts.

(** C2.  The specification has a retrieve that finds no row fail with
    [NotFoundError].  The snippet subscripts what [fetchone] returned without
    looking at it: with no row of that name the run ends in the [TypeError]
    of subscripting None, before the output file is opened. *)
Theorem retrieve_without_row_raises_TypeError :
  let w := World [] [] ∅ true [] None in
  retrieve_snippet String.eqb w = (Raise TypeError, set_session (Some []) w)
  ∧ fst (retrieve_snippet String.eqb w) ≠ Raise NotFoundError.
Proof. split; [reflexivity | discriminate]. Qed.

(** The same on every table without a row of the name. *)
Lemma retrieve_image_no_row collate (name out : string) (w : world) :
  reachable w = true →
  Forall (λ r, collate (image_name r) name = false) (image_store w) →
  retrieve_image collate name out w = (Raise TypeError, set_session (Some []) w).
Proof.
  intros Hr Hnone. by rewrite retrieve_image_run, Hr, filter_none.
Qed.

(** C3, as stated, fails when the table already holds a row of the name.
    Without a unique key the retrieve returns the older row, and the output
    file gets its bytes; with a unique key the insert is refused and nothing
    is written. *)
Lemma roundtrip_fails_on_taken_name :
  files taken_world !! "path_to_your_image.jpg" = Some [x01; x02]
  ∧ files (snd (image_store_py String.eqb false taken_world))
      !! "retrieved_image.jpg" = Some [x00]
  ∧ fst (image_store_py String.eqb true taken_world) = Raise IntegrityError
  ∧ files (snd (image_store_py String.eqb true taken_world))
      !! "retrieved_image.jpg" = None.
Proof. vm_compute. auto. Qed.

(** C3, amended.  When the server is reachable, the input file holds [B] and
    no row of the table has the name yet, the upload followed by the
    retrieve ends normally, the output file holds exactly [B], and the
    table has the one new row. *)
Theorem roundtrip_on_fresh_name
    (collate : string → string → bool) (unique_name : bool)
    (path name out : string) (B : list byte) (w : world) :
  collate name name = true →
  reachable w = true →
  files w !! path = Some B →
  Forall (λ r, collate (image_name r) name = false) (image_store w) →
  ∃ w',
    (upload_image collate unique_name path name ;;
     retrieve_image collate name out) w = (Ret tt, w')
    ∧ files w' !! out = Some B
    ∧ (∀ other, other ≠ out → files w' !! other = files w !! other)
    ∧ image_store w' = image_store w ++ [Row name B].
Proof.
  intros Hrefl Hr HB Hnone.
  unfold bind at 1.
  rewrite upload_image_run, Hr, HB, existsb_none, andb_false_r by exact Hnone.
  rewrite retrieve_image_run.
  destruct w as [i o f r t s]; cbn in *. subst r.
  rewrite List.filter_app, filter_none by exact Hnone. cbn.
  unfold matches_name; cbn. rewrite Hrefl. cbn.
  eexists. split; [reflexivity |]. cbn. split; [apply lookup_insert_eq |].
  split; [| reflexivity].
  intros other Hne. by apply lookup_insert_ne.
Qed.

Lemma roundtrip_on_fresh_name_witness :
  ∃ w',
    image_store_py String.eqb true fresh_world = (Ret tt, w')
    ∧ files w' !! "retrieved_image.jpg" = Some [x01; x02]
    ∧ (∀ other, other ≠ "retrieved_image.jpg" →
         files w' !! other = files fresh_world !! other)
    ∧ image_store w' = image_store fresh_world ++ [Row "example.jpg" [x01; x02]].
Proof.
  refine (roundtrip_on_fresh_name String.eqb true
            "path_to_your_image.jpg" "example.jpg" "retrieved_image.jpg"
            [x01; x02] fresh_world _ _ _ _).
  - reflexivity.
  - reflexivity.
  - reflexivity.
  - repeat constructor.
Defined.

(** C8.  An upload that ends normally leaves the table with exactly one row
    more, the name with the bytes of the input file, after the rows it had;
    an upload that fails leaves the table as it was; a retrieve leaves the
    table as it was, however it ends. *)
Theorem table_changes_by_one_insert :
  (∀ collate unique_name path name w w',
      upload_image collate unique_name path name w = (Ret tt, w') →
      ∃ data, files w !! path = Some data
              ∧ image_store w' = image_store w ++ [Row name data])
  ∧ (∀ collate unique_name path name w e w',
        upload_image collate unique_name path name w = (Raise e, w') →
        image_store w' = image_store w)
  ∧ (∀ collate name out w,
        image_store (snd (retrieve_image collate name out w)) = image_store w).
Proof.
  split; [| split].
  - intros collate unique_name path name w w'. rewrite upload_image_run.
    destruct (reachable w); [| discriminate].
    destruct (files w !! path) as [data | ]; [| discriminate].
    destruct (unique_name && _); [discriminate |].
    intros [= <-]. exists data. split; reflexivity.
  - intros collate unique_name path name w e w'. rewrite upload_image_run.
    destruct (reachable w); [| by intros [= _ <-]].
    destruct (files w !! path) as [data | ]; [| by intros [= _ <-]].
    destruct (unique_name && _); [by intros [= _ <-] | discriminate].
  - intros collate name out w. rewrite retrieve_image_run.
    destruct (reachable w); [| reflexivity].
    destruct (List.filter _ _) as [ | r [ | r' others]]; reflexivity.
Qed.

Lemma table_changes_by_one_insert_witness :
  ∃ data,
    files fresh_world !! "path_to_your_image.jpg" = Some data
    ∧ image_store
        (set_session None
           (printed "Image uploaded successfully."
              (set_image_store
                 [Row "other.jpg" [x00]; Row "example.jpg" [x01; x02]]
                 fresh_world)))
      = image_store fresh_world ++ [Row "example.jpg" data].
Proof.
  refine (proj1 table_changes_by_one_insert String.eqb true
            "path_to_your_image.jpg" "example.jpg" fresh_world _ _).
  reflexivity.
Defined.


(** * Further properties of the two files *)

(** ** The strings the validator accepts *)

Lemma local_char_no_at : local_char "@" = false.
Proof. reflexivity. Qed.

Lemma domain_char_local (c : ascii) : domain_char c = true → local_char c = true.
Proof. by_cases_on_char c; intros H; solve [reflexivity | discriminate H]. Qed.

Lemma is_alpha_local (c : ascii) : is_alpha c = true → local_char c = true.
Proof. by_cases_on_char c; intros H; solve [reflexivity | discriminate H]. Qed.

Lemma local_char_not_space (c : ascii) : local_char c = true → isspace c = false.
Proof. by_cases_on_char c; intros H; solve [reflexivity | discriminate H]. Qed.

(** The parts of a string of the shape: before the one [@] the local part,
    after it characters of the local class only. *)
Lemma shape_one_at (s : list ascii) :
  shape s →
  ∃ l r, s = l ++ "@"%char :: r
         ∧ Forall (λ c, local_char c = true) l
         ∧ Forall (λ c, local_char c = true) r.
Proof.
  intros (l & d & t & -> & _ & Hl & _ & Hd & _ & Ht).
  exists l, (d ++ "."%char :: t). split; [reflexivity | split; [exact Hl |]].
  apply Forall_app. split.
  - eapply Forall_impl; [exact Hd | apply domain_char_local].
  - constructor; [reflexivity |].
    eapply Forall_impl; [exact Ht | apply is_alpha_local].
Qed.

Lemma Forall_local_no_at (l : list ascii) :
  Forall (λ c, local_char c = true) l → "@"%char ∉ l.
Proof.
  intros Hl Hin. rewrite Forall_forall in Hl.
  specialize (Hl _ Hin). rewrite local_char_no_at in Hl. discriminate Hl.
Qed.

(** X1.  The validator returns [True] on exactly two kinds of strings: those
    of the e-mail shape that end with [.edu] in either case of its letters,
    and those followed by one final newline. *)
Theorem validate_true_iff (email : string) (w : world) :
  fst (validate_edu_email email w) = Ret true ↔
  (email_shape email ∧ ends_with_edu email)
  ∨ ∃ s', list_ascii_of_string email = s' ++ [LF]
          ∧ shape s' ∧ ∃ p x, s' = p ++ x ∧ edu_word x.
Proof. apply validate_accepts. Qed.

(** X2.  An accepted string holds exactly one [@]: it is cut at an [@] into
    two parts that hold none. *)
Theorem validate_true_one_at (email : string) (w : world) :
  fst (validate_edu_email email w) = Ret true →
  ∃ l r, list_ascii_of_string email = l ++ "@"%char :: r
         ∧ ("@"%char ∉ l) ∧ ("@"%char ∉ r).
Proof.
  intros [[Hs _] | (s' & Heq & Hs & _)]%validate_accepts.
  - apply shape_one_at in Hs as (l & r & Heq & Hl & Hr).
    exists l, r. split; [exact Heq |].
    split; by apply Forall_local_no_at.
  - apply shape_one_at in Hs as (l & r & -> & Hl & Hr).
    exists l, (r ++ [LF]). split; [by rewrite Heq, <- app_assoc |].
    split; [by apply Forall_local_no_at |].
    rewrite not_elem_of_app. split; [by apply Forall_local_no_at |].
    rewrite list_elem_of_singleton. discriminate.
Qed.

Lemma validate_true_one_at_witness :
  ∃ l r, list_ascii_of_string "student@university.edu" = l ++ "@"%char :: r
         ∧ ("@"%char ∉ l) ∧ ("@"%char ∉ r).
Proof.
  apply (validate_true_one_at "student@university.edu" (World [] [] ∅ true [] None)).
  reflexivity.
Defined.




(** ** The case of the letters *)

Lemma local_char_lower (c : ascii) : local_char (lower c) = local_char c.
Proof. by_cases_on_char c; reflexivity. Qed.

Lemma domain_char_lower (c : ascii) : domain_char (lower c) = domain_char c.
Proof. by_cases_on_char c; reflexivity. Qed.

Lemma is_alpha_lower (c : ascii) : is_alpha (lower c) = is_alpha c.
Proof. by_cases_on_char c; reflexivity. Qed.

Lemma is_alpha_not_at (c : ascii) : is_alpha c = true → lower c ≠ "@"%char.
Proof. by_cases_on_char c; intros H; solve [discriminate H | discriminate]. Qed.

Lemma is_alpha_not_dot (c : ascii) : is_alpha c = true → lower c ≠ "."%char.
Proof. by_cases_on_char c; intros H; solve [discriminate H | discriminate]. Qed.

Lemma is_alpha_not_LF (c : ascii) : is_alpha c = true → lower c ≠ LF.
Proof. by_cases_on_char c; intros H; solve [discriminate H | discriminate]. Qed.

Lemma lower_e (c : ascii) : lower c = "e"%char ↔ (c = "e" ∨ c = "E")%char.
Proof. rewrite <- lit_ok_narrow_e. unfold lit_ok. by rewrite Ascii.eqb_eq. Qed.

Lemma lower_d (c : ascii) : lower c = "d"%char ↔ (c = "d" ∨ c = "D")%char.
Proof. rewrite <- lit_ok_narrow_d. unfold lit_ok. by rewrite Ascii.eqb_eq. Qed.

Lemma lower_u (c : ascii) : lower c = "u"%char ↔ (c = "u" ∨ c = "U")%char.
Proof. rewrite <- lit_ok_narrow_u. unfold lit_ok. by rewrite Ascii.eqb_eq. Qed.

Section SameLetters.

(** Between two characters below 256, [same_letter] keeps the lower case;
    it keeps a character that is no letter as it is. *)
Lemma same_letter_lower (a1 a2 : ascii) :
  same_letter (Chr a1) (Chr a2) → lower a1 = lower a2.
Proof.
  intros [[= ->] | (b1 & b2 & [= ->] & [= ->] & _ & H)]; [reflexivity | exact H].
Qed.

Lemma same_letter_fixed (a1 : ascii) (c2 : pychar) (x : ascii) :
  same_letter (Chr a1) c2 → lower x = x → (∀ c, is_alpha c = true → lower c ≠ x) →
  a1 = x → c2 = Chr x.
Proof.
  intros [<- | (b1 & b2 & [= <-] & -> & Hb & H)] Hx Hno ->; [reflexivity |].
  destruct (Hno _ Hb Hx).
Qed.

Lemma same_letter_sym (s1 s2 : str) :
  Forall2 same_letter s1 s2 → Forall2 same_letter s2 s1.
Proof.
  induction 1 as [ | c1 c2 s1 s2 Hc _ IH]; constructor; [| exact IH].
  destruct Hc as [-> | (a1 & a2 & -> & -> & Ha & H)]; [by left |].
  right. exists a2, a1. repeat split; [| by symmetry].
  by rewrite <- is_alpha_lower, <- H, is_alpha_lower.
Qed.

(** A string in the other case of a string of code points below 256 is one
    too. *)
Lemma same_letter_narrow (l1 : list ascii) (s2 : str) :
  Forall2 same_letter (Chr <$> l1) s2 →
  ∃ l2, s2 = Chr <$> l2 ∧ Forall2 (λ a1 a2, same_letter (Chr a1) (Chr a2)) l1 l2.
Proof.
  revert s2. induction l1 as [ | a1 l1 IH]; intros s2 H.
  - apply Forall2_nil_inv_l in H as ->. exists []. split; [reflexivity | constructor].
  - rewrite fmap_cons in H.
    apply Forall2_cons_inv_l in H as (c2 & s2' & Hc & Hs & ->).
    destruct (IH _ Hs) as (l2 & -> & Hl).
    destruct Hc as [<- | (b1 & b2 & [= <-] & -> & Hb & H)].
    + exists (a1 :: l2). split; [reflexivity |]. constructor; [by left | exact Hl].
    + exists (b2 :: l2). split; [reflexivity |]. constructor; [| exact Hl].
      right. by exists a1, b2.
Qed.

Lemma Forall_same_letter (P : ascii → bool) (l1 l2 : list ascii) :
  (∀ c, P (lower c) = P c) →
  Forall2 (λ a1 a2, same_letter (Chr a1) (Chr a2)) l1 l2 →
  Forall (λ c, P c = true) l1 → Forall (λ c, P c = true) l2.
Proof.
  intros HP H12. induction H12 as [ | c1 c2 l1 l2 Hc _ IH]; [constructor |].
  intros [H1 Hl]%Forall_cons. constructor; [| by apply IH].
  apply same_letter_lower in Hc. by rewrite <- HP, <- Hc, HP.
Qed.

Lemma same_letter_at (a1 a2 : ascii) :
  same_letter (Chr a1) (Chr a2) → a1 = "@"%char → a2 = "@"%char.
Proof.
  intros H Ha. apply (same_letter_fixed _ _ "@"%char) in H as [= ->];
    [reflexivity | reflexivity | apply is_alpha_not_at | exact Ha].
Qed.

Lemma same_letter_dot (a1 a2 : ascii) :
  same_letter (Chr a1) (Chr a2) → a1 = "."%char → a2 = "."%char.
Proof.
  intros H Ha. apply (same_letter_fixed _ _ "."%char) in H as [= ->];
    [reflexivity | reflexivity | apply is_alpha_not_dot | exact Ha].
Qed.

Lemma same_letter_LF (a1 a2 : ascii) :
  same_letter (Chr a1) (Chr a2) → a1 = LF → a2 = LF.
Proof.
  intros H Ha. apply (same_letter_fixed _ _ LF) in H as [= ->];
    [reflexivity | reflexivity | apply is_alpha_not_LF | exact Ha].
Qed.

Lemma shape_same_letter (s1 s2 : list ascii) :
  Forall2 (λ a1 a2, same_letter (Chr a1) (Chr a2)) s1 s2 → shape s1 → shape s2.
Proof.
  intros H12 (l & d & t & -> & Hl1 & Hl2 & Hd1 & Hd2 & Ht1 & Ht2).
  apply Forall2_app_inv_l in H12 as (l' & r1 & Hl & H12 & ->).
  apply Forall2_cons_inv_l in H12 as (a & r2 & Ha & H12 & ->).
  apply Forall2_app_inv_l in H12 as (d' & r3 & Hd & H12 & ->).
  apply Forall2_cons_inv_l in H12 as (b & t' & Hb & Ht & ->).
  apply same_letter_at in Ha as ->; [| reflexivity].
  apply same_letter_dot in Hb as ->; [| reflexivity].
  exists l', d', t'. split; [reflexivity |].
  repeat split.
  - intros ->. apply Forall2_nil_inv_r in Hl. contradiction.
  - by apply (Forall_same_letter local_char l l' local_char_lower).
  - intros ->. apply Forall2_nil_inv_r in Hd. contradiction.
  - by apply (Forall_same_letter domain_char d d' domain_char_lower).
  - by rewrite <- (Forall2_length _ _ _ Ht).
  - by apply (Forall_same_letter is_alpha t t' is_alpha_lower).
Qed.

Lemma edu_word_same_letter (x1 x2 : list ascii) :
  Forall2 (λ a1 a2, same_letter (Chr a1) (Chr a2)) x1 x2 →
  edu_word x1 → edu_word x2.
Proof.
  intros H12 (e & d & u & -> & He & Hd & Hu).
  apply Forall2_cons_inv_l in H12 as (a & r1 & Ha & H12 & ->).
  apply Forall2_cons_inv_l in H12 as (e' & r2 & He' & H12 & ->).
  apply Forall2_cons_inv_l in H12 as (d' & r3 & Hd' & H12 & ->).
  apply Forall2_cons_inv_l in H12 as (u' & r4 & Hu' & H12 & ->).
  apply Forall2_nil_inv_l in H12 as ->.
  apply same_letter_dot in Ha as ->; [| reflexivity].
  apply same_letter_lower in He', Hd', Hu'.
  apply lower_e in He. apply lower_d in Hd. apply lower_u in Hu.
  exists e', d', u'. split; [reflexivity |].
  rewrite <- lower_e, <- lower_d, <- lower_u. repeat split; congruence.
Qed.

(** What the first and the second test of the validator answer does not
    depend on the case of the letters. *)
Lemma re_match_same_letter (s1 s2 : str) :
  Forall2 same_letter s1 s2 →
  re_match email_pattern s1 NOFLAG = true →
  re_match email_pattern s2 NOFLAG = true.
Proof.
  intros H12 (l & Hl & Heq)%re_match_email_str. apply re_match_email_str.
  destruct Heq as [-> | ->].
  - apply same_letter_narrow in H12 as (l2 & -> & H12).
    exists l2. split; [by apply (shape_same_letter l) | by left].
  - apply Forall2_app_inv_l in H12 as (s2' & n & Hs & Hn & ->).
    apply same_letter_narrow in Hs as (l2 & -> & H12).
    apply (same_letter_narrow [LF]) in Hn as (n' & -> & Hn).
    apply Forall2_cons_inv_l in Hn as (c & r & Hc & Hr & ->).
    apply Forall2_nil_inv_l in Hr as ->.
    apply same_letter_LF in Hc as ->; [| reflexivity].
    exists l2. split; [by apply (shape_same_letter l) | by right].
Qed.

Lemma re_search_same_letter (s1 s2 : str) :
  Forall2 same_letter s1 s2 →
  re_search edu_pattern s1 IGNORECASE = true →
  re_search edu_pattern s2 IGNORECASE = true.
Proof.
  intros H12 (p & x & rest & -> & Hx & Hrest)%re_search_edu_str.
  apply re_search_edu_str.
  apply Forall2_app_inv_l in H12 as (p' & r' & Hp & H12 & ->).
  apply Forall2_app_inv_l in H12 as (x' & rest' & Hx' & Hr & ->).
  apply same_letter_narrow in Hx' as (x2 & -> & Hx2).
  exists p', x2, rest'. split; [reflexivity |].
  split; [by apply (edu_word_same_letter x) |].
  destruct Hrest as [-> | ->].
  - left. by apply Forall2_nil_inv_l in Hr.
  - right. apply (same_letter_narrow [LF]) in Hr as (n' & -> & Hn).
    apply Forall2_cons_inv_l in Hn as (c & r & Hc & Hr & ->).
    apply Forall2_nil_inv_l in Hr as ->.
    by apply same_letter_LF in Hc as ->.
Qed.

Lemma encodable_same_letter (s1 s2 : str) :
  Forall2 same_letter s1 s2 → encodable s1 = encodable s2.
Proof.
  induction 1 as [ | c1 c2 s1 s2 Hc _ IH]; [reflexivity |].
  unfold encodable in *. simpl. rewrite IH. f_equal.
  by destruct Hc as [-> | (a1 & a2 & -> & -> & _)].
Qed.

End SameLetters.

(** The value the validator returns on a string the console can write. *)
Lemma validate_str_value (email : str) (w : world) :
  fst (validate_edu_email email w)
  = if encodable email
    then Ret (re_match email_pattern email NOFLAG
              && re_search edu_pattern email IGNORECASE)
    else Raise UnicodeEncodeError.
Proof.
  destruct (encodable email) eqn:He; [| by rewrite validate_unencodable].
  destruct (re_match email_pattern email NOFLAG) eqn:Hm.
  - destruct (re_search edu_pattern email IGNORECASE) eqn:Hs.
    + by rewrite (validate_str_valid _ _ He Hm Hs).
    + by rewrite (validate_str_not_edu _ _ He Hm Hs).
  - by rewrite (validate_str_invalid_format _ _ He Hm).
Qed.

Lemma bool_eq_of_imp (b1 b2 : bool) :
  (b1 = true → b2 = true) → (b2 = true → b1 = true) → b1 = b2.
Proof. destruct b1, b2; intuition congruence. Qed.

(** X4.  The answer of the validator does not depend on the case of the
    letters [a] to [z]: two strings that differ in the case of some of these
    letters only get the same answer, both accepted, both refused, or both
    not writable. *)
Theorem validate_ignores_case (s1 s2 : str) (w1 w2 : world) :
  Forall2 same_letter s1 s2 →
  fst (validate_edu_email s1 w1) = fst (validate_edu_email s2 w2).
Proof.
  intros H12. pose proof (same_letter_sym _ _ H12) as H21.
  rewrite !validate_str_value, (encodable_same_letter _ _ H12).
  destruct (encodable s2); [| reflexivity]. do 2 f_equal.
  - apply bool_eq_of_imp; by apply re_match_same_letter.
  - apply bool_eq_of_imp; by apply re_search_same_letter.
Qed.

Lemma validate_ignores_case_witness :
  fst (validate_edu_email "Student@University.Edu" (World [] [] ∅ true [] None))
  = fst (validate_edu_email "sTUDENT@uNIVERSITY.eDU" (World [] [] ∅ true [] None)).
Proof.
  apply validate_ignores_case.
  repeat (constructor;
          [first [ by left
                 | right; eexists _, _; repeat split; reflexivity ] |]).
  constructor.
Defined.


(** The value the validator returns, whatever the world. *)
Lemma validate_value (email : string) (w : world) :
  fst (validate_edu_email email w)
  = Ret (re_match email_pattern email NOFLAG
         && re_search edu_pattern email IGNORECASE).
Proof.
  destruct (re_match email_pattern email NOFLAG) eqn:Hm.
  - destruct (re_search edu_pattern email IGNORECASE) eqn:Hs.
    + by rewrite (validate_valid _ _ Hm Hs).
    + by rewrite (validate_not_edu _ _ Hm Hs).
  - by rewrite (validate_invalid_format _ _ Hm).
Qed.

(** ** [main] and the run of the file *)

(** The three events of a run of [main] on a line. *)
Lemma main_on_line (line : string) (rest : list string) (w : world) :
  ∃ (ok : bool) (message : string),
    fst (validate_edu_email (strip line) w) = Ret ok
    ∧ main (set_stdin (line :: rest) w)
      = (Ret tt,
         World rest
           (stdout w ++ [Prompt "Enter email address: "; Print message;
                         Print (if ok then "Valid email address"
                                else "Invalid email address")])
           (files w) (reachable w) (image_store w) (session w)).
Proof.
  assert (Hw : ∀ m v,
    printed v (printed m (prompted "Enter email address: " rest w))
    = World rest (stdout w ++ [Prompt "Enter email address: "; Print m; Print v])
        (files w) (reachable w) (image_store w) (session w)).
  { intros m v. unfold printed, prompted, set_stdout, set_stdin.
    cbn [stdin stdout files reachable image_store session].
    by rewrite <- !app_assoc. }
  rewrite main_run, validate_value. unfold bind.
  destruct (re_match email_pattern (strip line) NOFLAG) eqn:Hm.
  - destruct (re_search edu_pattern (strip line) IGNORECASE) eqn:Hs.
    + rewrite (validate_valid _ _ Hm Hs). eexists true, _.
      split; [reflexivity |]. by rewrite <- Hw.
    + rewrite (validate_not_edu _ _ Hm Hs). eexists false, _.
      split; [reflexivity |]. by rewrite <- Hw.
  - rewrite (validate_invalid_format _ _ Hm). eexists false, _.
    split; [reflexivity |]. by rewrite <- Hw.
Qed.

(** X5.  Given a line, [main] ends normally whatever the line is: it takes
    that one line from the input and writes three things, the prompt, the
    line of the validator and a verdict, and the verdict is "Valid email
    address" exactly when the validator returns [True] on the stripped
    line. *)
Theorem main_reports_the_verdict (line : string) (rest : list string) (w : world) :
  ∃ (ok : bool) (message : string),
    fst (validate_edu_email (strip line) w) = Ret ok
    ∧ main (set_stdin (line :: rest) w)
      = (Ret tt,
         World rest
           (stdout w ++ [Prompt "Enter email address: "; Print message;
                         Print (if ok then "Valid email address"
                                else "Invalid email address")])
           (files w) (reachable w) (image_store w) (session w)).
Proof. apply main_on_line. Qed.

(** X6.  At the end of the input [main] raises [EOFError]: the prompt has
    been written, the validator has not run and no verdict is printed. *)
Theorem main_at_end_of_input (w : world) :
  main (set_stdin [] w)
  = (Raise EOFError,
     set_stdin [] (set_stdout (stdout w ++ [Prompt "Enter email address: "]) w)).
Proof. reflexivity. Qed.

(** X7.  A run of the file calls [main] twice.  With two lines of input both
    are judged, each on its own, and the run ends normally; with one line
    the run judges it, writes the prompt again and ends in [EOFError]. *)
Theorem run_as_script_asks_twice :
  (∀ (l1 l2 : string) (rest : list string) (w : world),
      ∃ (ok1 ok2 : bool) (m1 m2 : string) (w1 : world),
        main (set_stdin (l1 :: l2 :: rest) w) = (Ret tt, w1)
        ∧ fst (validate_edu_email (strip l1) w) = Ret ok1
        ∧ fst (validate_edu_email (strip l2) w) = Ret ok2
        ∧ run_as_script (set_stdin (l1 :: l2 :: rest) w)
          = (Ret tt,
             World rest
               (stdout w ++
                [Prompt "Enter email address: "; Print m1;
                 Print (if ok1 then "Valid email address"
                        else "Invalid email address");
                 Prompt "Enter email address: "; Print m2;
                 Print (if ok2 then "Valid email address"
                        else "Invalid email address")])
               (files w) (reachable w) (image_store w) (session w)))
  ∧ (∀ (l1 : string) (w : world),
        ∃ (w1 : world),
          main (set_stdin [l1] w) = (Ret tt, w1)
          ∧ run_as_script (set_stdin [l1] w)
            = (Raise EOFError,
               set_stdout (stdout w1 ++ [Prompt "Enter email address: "]) w1)).
Proof.
  split.
  - intros l1 l2 rest w.
    destruct (main_on_line l1 (l2 :: rest) w) as (ok1 & m1 & Hok1 & Hrun1).
    match type of Hrun1 with _ = (_, ?W) => set (w1 := W) in * end.
    destruct (main_on_line l2 rest w1) as (ok2 & m2 & Hok2 & Hrun2).
    exists ok1, ok2, m1, m2, w1.
    split; [exact Hrun1 |]. split; [exact Hok1 |].
    split; [by rewrite validate_value in Hok2 |- * |].
    unfold run_as_script, bind. rewrite Hrun1.
    change (set_stdin (l2 :: rest) w1) with w1 in Hrun2. rewrite Hrun2.
    subst w1. cbn [stdin stdout files reachable image_store session].
    by rewrite <- app_assoc.
  - intros l1 w.
    destruct (main_on_line l1 [] w) as (ok1 & m1 & _ & Hrun1).
    eexists. split; [exact Hrun1 |].
    unfold run_as_script, bind. rewrite Hrun1. reflexivity.
Qed.

(** ** White space around the address *)

(** A string of the shape starts with a character of the local class and
    ends with a letter: no white space at either end. *)
Lemma shape_trimmed (s : list ascii) : shape s → trimmed s.
Proof.
  intros Hs. split.
  - destruct Hs as (l & d & t & -> & Hl1 & Hl2 & _).
    destruct l as [ | c l]; [done |]. simpl.
    apply Forall_cons in Hl2 as [Hc _]. by apply local_char_not_space.
  - apply shape_last_alpha in Hs as (s' & c & -> & Hc).
    rewrite rev_app_distr. simpl.
    by apply local_char_not_space, is_alpha_local.
Qed.

(** X8.  White space before and after what was typed does not count: a line
    made of white space, then a text that neither starts nor ends with
    white space, then white space again, gets the run of the text alone. *)
Theorem main_ignores_surrounding_space
    (pre core post : string) (rest : list string) (w : world) :
  blank (list_ascii_of_string pre) → blank (list_ascii_of_string post) →
  trimmed (list_ascii_of_string core) →
  main (set_stdin ((pre +:+ core +:+ post) :: rest) w)
  = main (set_stdin (core :: rest) w).
Proof.
  intros Hpre Hpost Hcore. rewrite !main_run.
  by rewrite (strip_padded pre core post), (strip_trimmed core) by assumption.
Qed.

Lemma main_ignores_surrounding_space_witness :
  main (set_stdin ["  student@university.edu  "] (World [] [] ∅ true [] None))
  = main (set_stdin ["student@university.edu"] (World [] [] ∅ true [] None)).
Proof.
  apply (main_ignores_surrounding_space "  " "student@university.edu" "  ").
  - repeat constructor.
  - repeat constructor.
  - split; reflexivity.
Defined.

Lemma strip_blank (line : string) :
  blank (list_ascii_of_string line) → strip line = "".
Proof.
  intros H. unfold strip, strip_list. by rewrite (lstrip_blank _ H).
Qed.

(** X9.  A line of white space only, the empty line among them, is judged
    as the empty string: the validator prints the message of the format
    check with nothing after it, and [main] prints "Invalid email
    address". *)
Theorem main_on_blank_line (line : string) (rest : list string) (w : world) :
  blank (list_ascii_of_string line) →
  main (set_stdin (line :: rest) w)
  = (Ret tt,
     printed "Invalid email address"
       (printed "Invalid email format: "
          (prompted "Enter email address: " rest w))).
Proof.
  intros H. rewrite main_run, (strip_blank line H). reflexivity.
Qed.

Lemma main_on_blank_line_witness :
  main (set_stdin ["   "] (World [] [] ∅ true [] None))
  = (Ret tt,
     World []
       [Prompt "Enter email address: "; Print "Invalid email format: ";
        Print "Invalid email address"] ∅ true [] None).
Proof.
  apply (main_on_blank_line "   " [] (World [] [] ∅ true [] None)).
  repeat constructor.
Defined.

(** ** The two snippets of image_store.py *)

(** The first row of a name in the table: what [fetchone] gets. *)
Lemma filter_first collate (name : string) (pre post : list row) (r : row) :
  Forall (λ r, collate (image_name r) name = false) pre →
  collate (image_name r) name = true →
  List.filter (matches_name collate name) (pre ++ r :: post)
  = r :: List.filter (matches_name collate name) post.
Proof.
  intros Hpre Hr. rewrite List.filter_app, filter_none by exact Hpre.
  simpl. unfold matches_name at 1. by rewrite Hr.
Qed.

Lemma filter_some collate (name : string) (t : list row) :
  existsb (matches_name collate name) t = true →
  ∃ r rs, List.filter (matches_name collate name) t = r :: rs.
Proof.
  induction t as [ | r t IH]; simpl; [discriminate |].
  destruct (matches_name collate name r); [eauto | exact IH].
Qed.

Lemma filter_nil_existsb collate (name : string) (t : list row) :
  List.filter (matches_name collate name) t = [] →
  existsb (matches_name collate name) t = false.
Proof.
  induction t as [ | r t IH]; simpl; [reflexivity |].
  destruct (matches_name collate name r); [discriminate | exact IH].
Qed.

(** X12.  The upload reads the local files and never writes them; it prints
    its one line exactly when it ends normally. *)
Theorem upload_keeps_files collate unique_name (path name : string) (w : world) :
  files (snd (upload_image collate unique_name path name w)) = files w
  ∧ stdout (snd (upload_image collate unique_name path name w))
    = stdout w ++
      match fst (upload_image collate unique_name path name w) with
      | Ret _ => [Print "Image uploaded successfully."]
      | Raise _ => []
      end.
Proof.
  rewrite upload_image_run.
  destruct (reachable w); [| by rewrite app_nil_r].
  destruct (files w !! path) as [data | ]; [| by rewrite app_nil_r].
  destruct (unique_name && _); simpl; [by rewrite app_nil_r | done].
Qed.

(** X14.  With two or more rows of the name, the retrieve writes the bytes
    of the first of them in the order of the table and prints its line;
    then [cursor.close()] is refused for the rows left unread, the run ends
    in [InternalError] and the connection stays open. *)
Theorem retrieve_with_several_rows
    collate (name out : string) (pre post : list row) (r : row) (w : world) :
  reachable w = true →
  image_store w = pre ++ r :: post →
  Forall (λ r, collate (image_name r) name = false) pre →
  collate (image_name r) name = true →
  existsb (matches_name collate name) post = true →
  retrieve_image collate name out w
  = (Raise InternalError,
     World (stdin w) (stdout w ++ [Print "Image retrieved and written to file."])
       (<[out := image_data r]> (files w)) true (image_store w) (Some [])).
Proof.
  intros Hr Ht Hpre Hmatch Hpost.
  apply filter_some in Hpost as (r' & others & Hpost).
  rewrite retrieve_image_run, Hr, Ht, (filter_first _ _ _ _ _ Hpre Hmatch), Hpost.
  destruct w as [i o f b t s]; cbn in *. by subst.
Qed.

Lemma retrieve_with_several_rows_witness :
  retrieve_image String.eqb "example.jpg" "retrieved_image.jpg"
    (World [] [] ∅ true
       [Row "other.jpg" [x00]; Row "example.jpg" [x01]; Row "example.jpg" [x02]]
       None)
  = (Raise InternalError,
     World [] [Print "Image retrieved and written to file."]
       (<["retrieved_image.jpg" := [x01]]> ∅) true
       [Row "other.jpg" [x00]; Row "example.jpg" [x01]; Row "example.jpg" [x02]]
       (Some [])).
Proof.
  apply (retrieve_with_several_rows String.eqb "example.jpg" "retrieved_image.jpg"
           [Row "other.jpg" [x00]] [Row "example.jpg" [x02]]
           (Row "example.jpg" [x01])
           (World [] [] ∅ true
              [Row "other.jpg" [x00]; Row "example.jpg" [x01];
               Row "example.jpg" [x02]] None)).
  - reflexivity.
  - reflexivity.
  - repeat constructor.
  - reflexivity.
  - reflexivity.
Defined.

(** X15.  A retrieve of a name that no row has leaves no trace on the
    machine: [fetchone()[0]] raises before the output file is opened, so no
    local file is created or emptied, nothing is printed, and the table is
    as it was. *)
Theorem retrieve_without_row_writes_nothing
    collate (name out : string) (w : world) :
  reachable w = true →
  Forall (λ r, collate (image_name r) name = false) (image_store w) →
  ∃ w', retrieve_image collate name out w = (Raise TypeError, w')
        ∧ files w' = files w ∧ stdout w' = stdout w
        ∧ image_store w' = image_store w.
Proof.
  intros Hr Hnone. rewrite retrieve_image_run, Hr, filter_none by exact Hnone.
  eexists. split; [reflexivity | by repeat split].
Qed.

Lemma retrieve_without_row_writes_nothing_witness :
  ∃ w', retrieve_snippet String.eqb fresh_world = (Raise TypeError, w')
        ∧ files w' = files fresh_world ∧ stdout w' = stdout fresh_world
        ∧ image_store w' = image_store fresh_world.
Proof.
  refine (retrieve_without_row_writes_nothing String.eqb
            "example.jpg" "retrieved_image.jpg" fresh_world _ _).
  - reflexivity.
  - repeat constructor.
Defined.

(** X16.  Where the name is not a unique key and the table already has a row
    of the name, an upload does not change what the retrieve writes: after
    the upload the output file gets the same bytes as it would have got
    before it, not those just uploaded. *)
Theorem upload_does_not_replace
    collate (path name out : string) (w : world) :
  reachable w = true →
  is_Some (files w !! path) →
  existsb (matches_name collate name) (image_store w) = true →
  files (snd ((upload_image collate false path name ;;
               retrieve_image collate name out) w))
  = files (snd (retrieve_image collate name out w)).
Proof.
  intros Hr [data Hdata] Hsome.
  apply filter_some in Hsome as (r & rs & Hfilter).
  unfold bind at 1. rewrite upload_image_run, Hr, Hdata. cbn [andb].
  rewrite !retrieve_image_run, Hfilter.
  destruct w as [i o f b t s]; cbn in *. subst b.
  rewrite List.filter_app, Hfilter.
  destruct rs; destruct (List.filter _ [_]); reflexivity.
Qed.

Lemma upload_does_not_replace_witness :
  files (snd (image_store_py String.eqb false taken_world))
  = files (snd (retrieve_snippet String.eqb taken_world)).
Proof.
  apply (upload_does_not_replace String.eqb
           "path_to_your_image.jpg" "example.jpg" "retrieved_image.jpg"
           taken_world).
  - reflexivity.
  - by eexists.
  - reflexivity.
Defined.

(** X17.  Both snippets close the connection on the normal path only: after
    a normal end no connection is open; after a failure past the connect
    the connection is still open, with nothing uncommitted; and when the
    connect itself fails the world is as it was. *)
Theorem connection_left_open_on_failure
    collate unique_name (path name out : string) (w : world) :
  session (snd (upload_image collate unique_name path name w))
  = match fst (upload_image collate unique_name path name w) with
    | Ret _ => None
    | Raise InterfaceError => session w
    | Raise _ => Some []
    end
  ∧ session (snd (retrieve_image collate name out w))
    = match fst (retrieve_image collate name out w) with
      | Ret _ => None
      | Raise InterfaceError => session w
      | Raise _ => Some []
      end.
Proof.
  rewrite upload_image_run, retrieve_image_run.
  destruct (reachable w); [| done].
  split.
  - destruct (files w !! path); [| done]. by destruct (unique_name && _).
  - by destruct (List.filter _ _) as [ | r [ | r' others]].
Qed.

(** X18.  Under a unique key the file cannot be run twice: after a run that
    stored the image under a fresh name, a second run is refused at the
    insert with [IntegrityError], and it leaves the table, the local files
    and the console as the first run left them. *)
Theorem second_run_refused_by_unique_key
    collate (path name out : string) (w : world) :
  collate name name = true →
  reachable w = true →
  is_Some (files w !! path) →
  Forall (λ r, collate (image_name r) name = false) (image_store w) →
  ∃ w1 w2,
    (upload_image collate true path name ;;
     retrieve_image collate name out) w = (Ret tt, w1)
    ∧ (upload_image collate true path name ;;
       retrieve_image collate name out) w1 = (Raise IntegrityError, w2)
    ∧ image_store w2 = image_store w1
    ∧ files w2 = files w1
    ∧ stdout w2 = stdout w1.
Proof.
  intros Hrefl Hr [data Hdata] Hnone.
  unfold bind at 1.
  rewrite upload_image_run, Hr, Hdata, existsb_none, andb_false_r by exact Hnone.
  rewrite retrieve_image_run.
  destruct w as [i o f b t s]; cbn in *. subst b.
  rewrite List.filter_app, filter_none by exact Hnone. cbn.
  unfold matches_name at 1; cbn. rewrite Hrefl.
  eexists. eexists. split; [reflexivity |].
  unfold bind. rewrite upload_image_run. cbn.
  assert (Hfile : is_Some (<[out := data]> f !! path)).
  { destruct (decide (out = path)) as [-> | Hne].
    - rewrite lookup_insert_eq. by eexists.
    - rewrite lookup_insert_ne by exact Hne. by eexists. }
  destruct Hfile as [data' ->].
  rewrite existsb_app. cbn. unfold matches_name at 2; cbn. rewrite Hrefl.
  rewrite orb_true_r. cbn. auto.
Qed.

Lemma second_run_refused_by_unique_key_witness :
  ∃ w1 w2,
    image_store_py String.eqb true fresh_world = (Ret tt, w1)
    ∧ image_store_py String.eqb true w1 = (Raise IntegrityError, w2)
    ∧ image_store w2 = image_store w1
    ∧ files w2 = files w1
    ∧ stdout w2 = stdout w1.
Proof.
  refine (second_run_refused_by_unique_key String.eqb
            "path_to_your_image.jpg" "example.jpg" "retrieved_image.jpg"
            fresh_world _ _ _ _).
  - reflexivity.
  - reflexivity.
  - by eexists.
  - repeat constructor.
Defined.

(** X19.  The retrieve can be repeated: a second retrieve of the same name
    to the same file leaves the local files and the table as the first one
    left them. *)
Theorem retrieve_twice collate (name out : string) (w : world) :
  files (snd ((retrieve_image collate name out ;;
               retrieve_image collate name out) w))
  = files (snd (retrieve_image collate name out w))
  ∧ image_store (snd ((retrieve_image collate name out ;;
                       retrieve_image collate name out) w))
    = image_store w.
Proof.
  unfold bind. rewrite retrieve_image_run.
  destruct (reachable w) eqn:Hr; [| done].
  destruct (List.filter _ _) as [ | r [ | r' others]] eqn:E; [done | | done].
  cbv beta iota zeta. rewrite retrieve_image_run.
  destruct w as [i o f b t s]; cbn in *. subst b. rewrite E. cbn.
  split; [apply insert_insert_eq | reflexivity].
Qed.
